(** * Reciprocating lock (Dice & Kogan, arXiv:2501.02380)

    A model of [examples/tilt/deps/reciplock/include/reciplock.h] and of the
    tilt back end [examples/tilt/locks/reciplock.c].

    The header is compiled with [TLS_IMPLEMENTATION] set to 1 (line 32), so the
    model follows the [#if TLS_IMPLEMENTATION] variants of [reciplock_acquire]
    and [reciplock_release], and the [#else] arm of the [#if 0] at line 156.

    - Memory is the lock word [tail] and one [next] field per node address.
    - A thread is a program point, the locals that live across an atomic
      access, and its two [__thread] context variables.
    - Threads interleave at the granularity of one atomic access per step,
      under sequential consistency; the weaker orderings that the header asks
      for are not modelled.
    - The asserts are compiled in; a failed assert parks the thread at
      [Abort].  None ever fails ([no_assert_fails]).
    - Every step records the accesses it made and the calls and returns it
      crossed, so that statements about what an operation does can be made on
      its trace. *)

From stdpp Require Import base numbers list sets functions.

Local Open Scope Z_scope.

(** ** Pointers

    A [reciplock_node_t *] is its address.  [NULL] is 0 and line 53 reserves
    address 1 for the "locked, nothing in the arrival segment" encoding. *)

Definition ptr : Type := Z.

Definition NULL : ptr := 0.

Definition LOCKED_EMPTY : ptr := 1.

(** Line 110: [(reciplock_node_t * )(((uintptr_t) tail_prev) & ~1)].  [~1] is
    the all-ones word with bit 0 cleared; on [Z] that is [Z.lnot 1]. *)
Definition clear_tag (p : ptr) : ptr := Z.land p (Z.lnot 1).

(** ** Per-thread state *)

(** Where a thread stands; each point names the next atomic access. *)
Inductive label : Type :=
  | Idle          (* outside the lock; next: line 97, store to own next *)
  | AcqXchg       (* line 103, exchange on tail *)
  | AcqSpin       (* line 115, load of own next *)
  | Crit          (* acquire has returned; next: lines 144-145 of release *)
  | RelChkSucc    (* line 148, load of successor's next *)
  | RelStoreSucc  (* line 151, store to successor's next *)
  | RelFastLoad   (* line 166, load of tail *)
  | RelCas        (* line 168, compare-exchange on tail *)
  | RelXchg       (* line 176, exchange on tail *)
  | RelChkW       (* line 180, load of w's next *)
  | RelStoreW     (* line 183, store to w's next *)
  | Abort.        (* an assert failed *)

Global Instance label_eq_dec : EqDecision label.
Proof. solve_decision. Defined.

(** Locals of the two functions that live across an atomic access, and the two
    [__thread] variables of lines 48-49. *)
Record thread : Type := Thread {
  pc : label;
  tail_prev : ptr;            (* line 103 *)
  succ : ptr;                 (* line 99 *)
  w : ptr;                    (* line 176 *)
  tls_successor : ptr;        (* line 48 *)
  tls_end_of_segment : ptr    (* line 49 *)
}.

Definition goto (l : label) (T : thread) : thread :=
  Thread l (tail_prev T) (succ T) (w T)
         (tls_successor T) (tls_end_of_segment T).

Definition set_arrival (tp s : ptr) (T : thread) : thread :=
  Thread (pc T) tp s (w T) (tls_successor T) (tls_end_of_segment T).

Definition set_w (x : ptr) (T : thread) : thread :=
  Thread (pc T) (tail_prev T) (succ T) x
         (tls_successor T) (tls_end_of_segment T).

(** Lines 128-129 and 133: publish the context in thread-local storage. *)
Definition set_tls (s e : ptr) (T : thread) : thread :=
  Thread (pc T) (tail_prev T) s (w T) s e.

(** ** Shared state

    [tail] is the lock word (line 41); [next a] is the [next] field of the
    node at address [a] (line 36); [th t] is thread [t]. *)
Record state : Type := State {
  tail : ptr;
  next : ptr -> ptr;
  th : nat -> thread
}.

(** What a step does to memory and to the call stack. *)
Inductive event : Type :=
  | EvStoreNext (a v : ptr)
  | EvLoadNext (a v : ptr)
  | EvLoadTail (v : ptr)
  | EvXchgTail (new old : ptr)
  | EvCasTail (expected desired : ptr) (ok : bool)
  | EvAcqReturn (ret : ptr)
  | EvRelCall
  | EvRelReturn
  | EvAssertFail.

Global Instance event_eq_dec : EqDecision event.
Proof. solve_decision. Defined.

Definition is_store (e : event) : bool :=
  match e with EvStoreNext _ _ => true | _ => false end.

Definition is_cas (e : event) : bool :=
  match e with EvCasTail _ _ _ => true | _ => false end.

Definition is_spin_load (e : event) : bool :=
  match e with EvLoadNext _ _ => true | _ => false end.

Definition writes_tail (e : event) : bool :=
  match e with
  | EvXchgTail _ _ => true
  | EvCasTail _ _ ok => ok
  | _ => false
  end.

(** Lines 68-72. *)
Definition reciplock_init (s : state) : state :=
  State NULL (next s) (th s).

(** Static storage is zero-initialised; the lock is then initialised. *)
Definition boot_state : state :=
  State NULL (fun _ => NULL) (fun _ => Thread Idle NULL NULL NULL NULL NULL).

Definition init_state : state := reciplock_init boot_state.

(** [addr t] is the address of thread [t]'s [tls_wait_node] (line 45). *)
Class Layout : Type := addr : nat -> ptr.

Section Protocol.

Context {lay : Layout}.

Definition at_thread (t : nat) (T : thread) (s : state) : state :=
  State (tail s) (next s) (<[t := T]> (th s)).

Definition abort (t : nat) (evs : list event) (s : state)
  : list event * state :=
  (evs ++ [EvAssertFail], at_thread t (goto Abort (th s t)) s).

(** *** reciplock_acquire, lines 89-134 *)

(** Line 97. *)
Definition acquire_reset (t : nat) (s : state) : list event * state :=
  ([EvStoreNext (addr t) NULL],
   State (tail s)
         (<[addr t := NULL]> (next s))
         (<[t := goto AcqXchg (th s t)]> (th s))).

(** Lines 99-111, and 128-133 on the path that skips the [if] of line 107. *)
Definition acquire_exchange (t : nat) (s : state) : list event * state :=
  let T := th s t in
  let tp := tail s in
  let s1 := State (addr t) (next s) (th s) in
  if decide (tp = addr t) then abort t [EvXchgTail (addr t) tp] s1
  else if decide (tp = NULL) then
    ([EvXchgTail (addr t) tp; EvAcqReturn NULL],
     at_thread t (goto Crit (set_tls NULL (addr t) (set_arrival tp NULL T))) s1)
  else if decide (clear_tag tp = addr t) then
    abort t [EvXchgTail (addr t) tp] s1
  else
    ([EvXchgTail (addr t) tp],
     at_thread t (goto AcqSpin (set_arrival tp (clear_tag tp) T)) s1).

(** Lines 114-133: one iteration of the spin loop and, when it breaks, the
    rest of the function. *)
Definition acquire_spin (t : nat) (s : state) : list event * state :=
  let T := th s t in
  let segment_end := next s (addr t) in
  if decide (segment_end = NULL) then ([EvLoadNext (addr t) segment_end], s)
  else if decide (segment_end = addr t) then
    abort t [EvLoadNext (addr t) segment_end] s
  else if decide (succ T = segment_end) then
    ([EvLoadNext (addr t) segment_end; EvAcqReturn NULL],
     at_thread t (goto Crit (set_tls NULL LOCKED_EMPTY T)) s)
  else
    ([EvLoadNext (addr t) segment_end; EvAcqReturn (succ T)],
     at_thread t (goto Crit (set_tls (succ T) segment_end T)) s).

(** *** reciplock_release, lines 142-184 *)

(** Lines 144-147 and 155. *)
Definition release_enter (t : nat) (s : state) : list event * state :=
  let T := th s t in
  if decide (tls_end_of_segment T = NULL) then abort t [EvRelCall] s
  else if decide (tail s = NULL) then abort t [EvRelCall; EvLoadTail (tail s)] s
  else if decide (tls_successor T = NULL) then
    if decide (tls_end_of_segment T = LOCKED_EMPTY \/
               tls_end_of_segment T = addr t)
    then ([EvRelCall; EvLoadTail (tail s)], at_thread t (goto RelFastLoad T) s)
    else abort t [EvRelCall; EvLoadTail (tail s)] s
  else ([EvRelCall; EvLoadTail (tail s)], at_thread t (goto RelChkSucc T) s).

(** Line 148. *)
Definition release_check_succ (t : nat) (s : state) : list event * state :=
  let T := th s t in
  let v := next s (tls_successor T) in
  if decide (v = NULL) then
    ([EvLoadNext (tls_successor T) v], at_thread t (goto RelStoreSucc T) s)
  else abort t [EvLoadNext (tls_successor T) v] s.

(** Lines 151-152. *)
Definition release_store_succ (t : nat) (s : state) : list event * state :=
  let T := th s t in
  ([EvStoreNext (tls_successor T) (tls_end_of_segment T); EvRelReturn],
   State (tail s)
         (<[tls_successor T := tls_end_of_segment T]> (next s))
         (<[t := goto Idle T]> (th s))).

(** Line 166. *)
Definition release_fast_load (t : nat) (s : state) : list event * state :=
  let T := th s t in
  if decide (tail s = tls_end_of_segment T) then
    ([EvLoadTail (tail s)], at_thread t (goto RelCas T) s)
  else ([EvLoadTail (tail s)], at_thread t (goto RelXchg T) s).

(** Lines 167-171. *)
Definition release_cas (t : nat) (s : state) : list event * state :=
  let T := th s t in
  if decide (tail s = tls_end_of_segment T) then
    ([EvCasTail (tls_end_of_segment T) NULL true; EvRelReturn],
     State NULL (next s) (<[t := goto Idle T]> (th s)))
  else
    ([EvCasTail (tls_end_of_segment T) NULL false],
     at_thread t (goto RelXchg T) s).

(** Lines 176-179. *)
Definition release_detach (t : nat) (s : state) : list event * state :=
  let T := th s t in
  let x := tail s in
  let s1 := State LOCKED_EMPTY (next s) (th s) in
  if decide (x = NULL \/ x = LOCKED_EMPTY \/ x = addr t) then
    abort t [EvXchgTail LOCKED_EMPTY x] s1
  else
    ([EvXchgTail LOCKED_EMPTY x], at_thread t (goto RelChkW (set_w x T)) s1).

(** Line 180. *)
Definition release_check_w (t : nat) (s : state) : list event * state :=
  let T := th s t in
  let v := next s (w T) in
  if decide (v = NULL) then
    ([EvLoadNext (w T) v], at_thread t (goto RelStoreW T) s)
  else abort t [EvLoadNext (w T) v] s.

(** Lines 183-184. *)
Definition release_store_w (t : nat) (s : state) : list event * state :=
  let T := th s t in
  ([EvStoreNext (w T) (tls_end_of_segment T); EvRelReturn],
   State (tail s)
         (<[w T := tls_end_of_segment T]> (next s))
         (<[t := goto Idle T]> (th s))).

(** The next atomic step of [reciplock_acquire] for a thread inside it (or
    about to call it). *)
Definition reciplock_acquire (t : nat) (s : state) : list event * state :=
  match pc (th s t) with
  | Idle => acquire_reset t s
  | AcqXchg => acquire_exchange t s
  | AcqSpin => acquire_spin t s
  | _ => ([], s)
  end.

(** The next atomic step of [reciplock_release] for a thread inside it (or
    about to call it). *)
Definition reciplock_release (t : nat) (s : state) : list event * state :=
  match pc (th s t) with
  | Crit => release_enter t s
  | RelChkSucc => release_check_succ t s
  | RelStoreSucc => release_store_succ t s
  | RelFastLoad => release_fast_load t s
  | RelCas => release_cas t s
  | RelXchg => release_detach t s
  | RelChkW => release_check_w t s
  | RelStoreW => release_store_w t s
  | _ => ([], s)
  end.

(** One atomic step of thread [t]: a thread outside the lock calls acquire,
    a thread that holds it calls release, and each call runs to its return. *)
Definition tstep (t : nat) (s : state) : list event * state :=
  match pc (th s t) with
  | Idle | AcqXchg | AcqSpin => reciplock_acquire t s
  | Crit | RelChkSucc | RelStoreSucc | RelFastLoad | RelCas | RelXchg
  | RelChkW | RelStoreW => reciplock_release t s
  | Abort => ([], s)
  end.

(** reciplock.c, lines 18-27: the wrappers pass the lock on; the successor
    that [reciplock_acquire] returns is dropped. *)
Definition tilt_mutex_lock (t : nat) (s : state) : list event * state :=
  reciplock_acquire t s.

Definition tilt_mutex_unlock (t : nat) (s : state) : list event * state :=
  reciplock_release t s.

Definition step (t : nat) (s : state) : state := (tstep t s).2.

Definition events (t : nat) (s : state) : list event := (tstep t s).1.

(** A schedule is the list of thread ids in the order they step. *)
Fixpoint exec (sched : list nat) (s : state) : state :=
  match sched with
  | [] => s
  | t :: sched' => exec sched' (step t s)
  end.

Fixpoint trace (sched : list nat) (s : state) : list (nat * event) :=
  match sched with
  | [] => []
  | t :: sched' => map (pair t) (events t s) ++ trace sched' (step t s)
  end.

(** States reached by [n] threads from an initialised lock. *)
Inductive reachable (n : nat) : state -> Prop :=
  | reach_init : reachable n init_state
  | reach_step s t : reachable n s -> (t < n)%nat -> reachable n (step t s).

(** ** The queue structure behind a held lock *)

(** A thread parked in the spin loop whose node has not been written yet. *)
Definition waiting (s : state) (e : nat) : Prop :=
  pc (th s e) = AcqSpin /\ next s (addr e) = NULL.

(** [linked s p L m]: [p] is the node of the first thread of [L], each
    thread's [succ] is the node of the one after it, and the last one's
    [succ] is [m]. *)
Fixpoint linked (s : state) (p : ptr) (L : list nat) (m : ptr) : Prop :=
  match L with
  | [] => p = m
  | e :: L' => p = addr e /\ waiting s e /\ linked s (succ (th s e)) L' m
  end.

(** The arrival segment [S], most recent first, pushed on a tail word [b]. *)
Definition arrivals (s : state) (S : list nat) (b : ptr) : Prop :=
  match S with
  | [] => tail s = b
  | _ => linked s (tail s) S (clear_tag b)
  end.

(** Threads that are not queued and do not own the lock. *)
Definition quiet (s : state) (t : nat) : Prop :=
  pc (th s t) = Idle \/ (pc (th s t) = AcqXchg /\ next s (addr t) = NULL).

Definition is_marker (v : ptr) : Prop :=
  v = LOCKED_EMPTY \/ exists o, v = addr o.

Definition fresh (v : ptr) (E : list nat) : Prop :=
  forall e, e ∈ E -> v <> addr e.

(** The entry segment [E] hangs off [p] and is being handed the end-of-segment
    value [v]. *)
Definition handing (s : state) (p v : ptr) (E : list nat) : Prop :=
  linked s p E (clear_tag v) /\ fresh v E /\ is_marker v.

Definition has_succ (s : state) (h : nat) (E : list nat) (b : ptr) : Prop :=
  let T := th s h in
  b = LOCKED_EMPTY /\ tls_successor T <> NULL /\ E <> [] /\
  tls_end_of_segment T <> addr h /\
  handing s (tls_successor T) (tls_end_of_segment T) E.

Definition no_succ (s : state) (h : nat) (E : list nat) (b : ptr) : Prop :=
  let T := th s h in
  b = tls_end_of_segment T /\ tls_successor T = NULL /\ E = [] /\
  (tls_end_of_segment T = LOCKED_EMPTY \/ tls_end_of_segment T = addr h).

(** What the owner [h] knows, by program point. *)
Definition holds (s : state) (h : nat) (E : list nat) (b : ptr) : Prop :=
  let T := th s h in
  match pc T with
  | AcqSpin =>
      b = LOCKED_EMPTY /\
      next s (addr h) <> NULL /\ next s (addr h) <> addr h /\
      handing s (succ T) (next s (addr h)) E
  | Crit => has_succ s h E b \/ no_succ s h E b
  | RelChkSucc | RelStoreSucc => has_succ s h E b
  | RelFastLoad | RelCas => no_succ s h E b
  | RelXchg => no_succ s h E b /\ tail s <> b
  | RelChkW | RelStoreW =>
      b = LOCKED_EMPTY /\ tls_successor T = NULL /\ E <> [] /\
      (tls_end_of_segment T = LOCKED_EMPTY \/ tls_end_of_segment T = addr h) /\
      handing s (w T) (tls_end_of_segment T) E
  | Idle | AcqXchg | Abort => False
  end.

Definition held (s : state) (h : nat) (E S : list nat) (b : ptr) : Prop :=
  NoDup (S ++ E) /\ (h ∉ S ++ E) /\
  (forall t, t <> h -> (t ∉ S ++ E) -> quiet s t) /\
  arrivals s S b /\ holds s h E b.

Definition free (s : state) : Prop :=
  tail s = NULL /\ forall t, quiet s t.

Definition Inv (s : state) : Prop :=
  free s \/ exists h E S b, held s h E S b.

Definition same_at (s s' : state) (e : nat) : Prop :=
  th s' e = th s e /\ next s' (addr e) = next s (addr e).

Definition active (l : label) : Prop :=
  l <> Idle /\ l <> AcqXchg /\ l <> AcqSpin.

Definition holding (l : label) : bool :=
  match l with
  | Crit | RelChkSucc | RelStoreSucc | RelFastLoad | RelCas | RelXchg
  | RelChkW | RelStoreW => true
  | Idle | AcqXchg | AcqSpin | Abort => false
  end.

Definition cycle (t : nat) : list nat := [t; t; t; t; t].

End Protocol.


(** ** The tilt back end, [examples/tilt/locks/reciplock.c] *)

(** Lines 8-11. *)
Definition tilt_mutex_init (s : state) : state := reciplock_init s.

(** Lines 13-16: empty body. *)
Definition tilt_mutex_destroy (s : state) : state := s.

(** Lines 29-32.  The body is empty: no statement runs and the lock is not
    touched.  The function is declared [bool] and control reaches its closing
    brace without a [return], so the function itself sets no result; the
    caller, which expects a [bool], reads whatever the return register holds
    at that moment.  [ret] is that value: the call hands it on unchanged. *)
Definition tilt_mutex_trylock (ret : bool) (t : nat) (s : state) :
    bool * state :=
  (ret, s).

(** The same operation in a sibling back end, [examples/tilt/locks/caslock.c]
    lines 31-35: [return 0 == atomic_exchange(&m->lock, 1);] on the lock word
    of lines 4-6.  The result says whether the call took the lock. *)
Module Caslock.

Definition tilt_mutex_trylock (lock : Z) : bool * Z :=
  (0 =? lock, 1).

End Caslock.

(** ** A concrete layout: 8-byte nodes from address 4096 *)

Definition addr0 (t : nat) : ptr := 4096 + 8 * Z.of_nat t.

(** *** Concrete runs *)

(** T0 holds the lock through the fast path and T1 has queued behind it. *)
Definition one_waiter : state :=
  exec (lay := addr0) [0; 0; 1; 1]%nat init_state.

(** T1 took the lock, T0 queued, T1 released through the slow path and T0
    woke up: T0 holds the lock with no successor. *)
Definition woken_alone : state :=
  exec (lay := addr0) [0; 1; 1; 0; 1; 1; 1; 1; 1; 0]%nat init_state.

(** As above, but T2 queued before T0 did: T0 holds the lock with T2 as its
    successor.  Lock word and nodes are as in [woken_alone]. *)
Definition woken_with_successor : state :=
  exec (lay := addr0) [0; 1; 1; 1; 2; 2; 0; 1; 1; 1; 1; 0]%nat init_state.

(** T0 is in its critical section and T1 has not touched the lock. *)
Definition held_by_T0 : state :=
  exec (lay := addr0) [0; 0]%nat init_state.

(** T3 and then T2 queued behind T0; T0 released, waking T2 with T3 as its
    successor; then T1 arrived.  T2 has not yet looked at its node. *)
Definition late_arrival : state :=
  exec (lay := addr0) [0; 0; 3; 3; 2; 2; 0; 0; 0; 0; 0; 1; 1]%nat init_state.

(** From [late_arrival]: T2 enters and leaves and queues up again, T3 enters
    and leaves, T2 enters again. *)
Definition overtaking : list nat :=
  [2; 2; 2; 2; 2; 2; 3; 3; 3; 3; 3; 3; 2]%nat.

(** ** Owning the lock *)

Section Ownership.

Context {lay : Layout}.

(** A thread owns the lock from the moment the lock is its to take: on the
    fast path when its exchange returns, on the contended path when its node
    is written, and until its release has returned. *)
Definition owns (s : state) (t : nat) : Prop :=
  holding (pc (th s t)) = true \/
  (pc (th s t) = AcqSpin /\ next s (addr t) <> NULL).

(** A thread outside the lock, or inside acquire before its exchange. *)
Definition outside (s : state) (t : nat) : Prop :=
  pc (th s t) = Idle \/ pc (th s t) = AcqXchg.

End Ownership.

(** ** The benchmark, [examples/tilt/bench/bench_mutex.cpp]

    [worker] (lines 24-40) takes the mutex, advances the shared generator
    once, releases the mutex and counts the round, until [main] raises
    [done]; it then adds its count to [iterations_total] and returns it.

    The benchmark calls [pthread_mutex_lock] and [pthread_mutex_unlock]; the
    tilt layer that routes them to a back end is not part of the sources at
    hand.  Here they are [tilt_mutex_lock] and [tilt_mutex_unlock] of the
    reciprocating back end, on a lock that starts out initialised. *)

(** [uint64_t] arithmetic. *)
Definition u64 (z : Z) : Z := z mod 2 ^ 64.

Definition is_acq_return (e : event) : bool :=
  match e with EvAcqReturn _ => true | _ => false end.

Definition is_rel_return (e : event) : bool :=
  match e with EvRelReturn => true | _ => false end.

(** Where a worker stands. *)
Inductive wlabel : Type :=
  | WLoop        (* line 26, load of done *)
  | WLock        (* line 27, inside pthread_mutex_lock *)
  | WPrngRead    (* line 29, prng() reads the generator *)
  | WPrngWrite   (* line 29, prng() writes the generator back *)
  | WUnlock      (* line 31, inside pthread_mutex_unlock *)
  | WAdd         (* line 37, fetch-add on iterations_total *)
  | WExit.       (* returned *)

Global Instance wlabel_eq_dec : EqDecision wlabel.
Proof. solve_decision. Defined.

Section Bench.

Context {lay : Layout}.

(** The state of [std::mt19937] and one call of its [operator()]. *)
Context {X : Type}.
Variable prng_step : X -> X.

Record bench : Type := Bench {
  mutex : state;                 (* line 18 *)
  prng : X;                      (* line 20 *)
  done : bool;                   (* line 21 *)
  iterations_total : Z;          (* line 22 *)
  wpc : nat -> wlabel;
  prng_loaded : nat -> X;        (* what prng() has read *)
  iterations_local : nat -> Z    (* line 25 *)
}.

Definition bench_init (seed : X) : bench :=
  Bench init_state seed false 0 (fun _ => WLoop) (fun _ => seed) (fun _ => 0).

(** One atomic step of worker [t]. *)
Definition wstep (t : nat) (b : bench) : bench :=
  match wpc b t with
  | WLoop =>
      Bench (mutex b) (prng b) (done b) (iterations_total b)
            (<[t := if done b then WAdd else WLock]> (wpc b))
            (prng_loaded b) (iterations_local b)
  | WLock =>
      let r := tilt_mutex_lock t (mutex b) in
      Bench r.2 (prng b) (done b) (iterations_total b)
            (<[t := if existsb is_acq_return r.1 then WPrngRead else WLock]>
               (wpc b))
            (prng_loaded b) (iterations_local b)
  | WPrngRead =>
      Bench (mutex b) (prng b) (done b) (iterations_total b)
            (<[t := WPrngWrite]> (wpc b))
            (<[t := prng b]> (prng_loaded b)) (iterations_local b)
  | WPrngWrite =>
      Bench (mutex b) (prng_step (prng_loaded b t)) (done b)
            (iterations_total b)
            (<[t := WUnlock]> (wpc b))
            (prng_loaded b) (iterations_local b)
  | WUnlock =>
      let r := tilt_mutex_unlock t (mutex b) in
      if existsb is_rel_return r.1 then
        (* line 35 *)
        Bench r.2 (prng b) (done b) (iterations_total b)
              (<[t := WLoop]> (wpc b))
              (prng_loaded b)
              (<[t := u64 (iterations_local b t + 1)]> (iterations_local b))
      else
        Bench r.2 (prng b) (done b) (iterations_total b)
              (wpc b) (prng_loaded b) (iterations_local b)
  | WAdd =>
      Bench (mutex b) (prng b) (done b)
            (u64 (iterations_total b + iterations_local b t))
            (<[t := WExit]> (wpc b))
            (prng_loaded b) (iterations_local b)
  | WExit => b
  end.

(** Line 57 of [main]. *)
Definition main_stop (b : bench) : bench :=
  Bench (mutex b) (prng b) true (iterations_total b)
        (wpc b) (prng_loaded b) (iterations_local b).

(** The states of a run with [n] workers. *)
Inductive bench_reachable (seed : X) (n : nat) : bench -> Prop :=
  | breach_init : bench_reachable seed n (bench_init seed)
  | breach_step b t :
      bench_reachable seed n b -> (t < n)%nat ->
      bench_reachable seed n (wstep t b)
  | breach_stop b :
      bench_reachable seed n b -> bench_reachable seed n (main_stop b).

(** A run, as the list of who moves: a worker, or [main] raising [done]. *)
Inductive action : Type :=
  | Work (t : nat)
  | Stop.

Definition bench_act (a : action) (b : bench) : bench :=
  match a with
  | Work t => wstep t b
  | Stop => main_stop b
  end.

Fixpoint bench_run (acts : list action) (b : bench) : bench :=
  match acts with
  | [] => b
  | a :: acts' => bench_run acts' (bench_act a b)
  end.

Definition action_ok (n : nat) (a : action) : bool :=
  match a with
  | Work t => Nat.ltb t n
  | Stop => true
  end.

Definition in_prng (b : bench) (t : nat) : Prop :=
  wpc b t = WPrngRead \/ wpc b t = WPrngWrite.

(** [sumn n g] is [g 0 + ... + g (n - 1)]. *)
Fixpoint sumn (n : nat) (g : nat -> nat) : nat :=
  match n with
  | O => O
  | S k => (sumn k g + g k)%nat
  end.

(** How the lock's program point and the worker's go together. *)
Definition wpc_ok (l : label) (wl : wlabel) : Prop :=
  match wl with
  | WLoop | WAdd | WExit => l = Idle
  | WLock => l = Idle \/ l = AcqXchg \/ l = AcqSpin
  | WPrngRead | WPrngWrite => l = Crit
  | WUnlock => holding l = true
  end.

(** A prng() call that has written and is not counted yet. *)
Definition pending (wl : wlabel) : nat :=
  match wl with WUnlock => 1%nat | _ => O end.

Definition exited (wl : wlabel) (k : nat) : nat :=
  match wl with WExit => k | _ => O end.

Definition bench_inv (seed : X) (n : nat) (b : bench) : Prop :=
  reachable n (mutex b) /\
  (forall t, wpc_ok (pc (th (mutex b) t)) (wpc b t)) /\
  (forall t, wpc b t = WPrngWrite -> prng_loaded b t = prng b) /\
  exists cnt : nat -> nat,
    (forall t, iterations_local b t = u64 (Z.of_nat (cnt t))) /\
    iterations_total b =
      u64 (Z.of_nat (sumn n (fun t => exited (wpc b t) (cnt t)))) /\
    prng b =
      Nat.iter (sumn n (fun t => cnt t + pending (wpc b t))%nat)
               prng_step seed.

End Bench.

(** Concrete runs of two workers over a generator that counts its calls
    from 42.  In [bench_mid_prng] worker 0 has read the generator and not
    yet written it back; in [bench_finished] worker 1 queued up behind
    worker 0, both went round, [main] raised [done] and both returned. *)
Definition bench_mid_prng : bench :=
  bench_run (lay := addr0) S (repeat (Work 0) 4) (bench_init 42%nat).

Definition bench_finished : bench :=
  bench_run (lay := addr0) S
    (repeat (Work 0) 3 ++ repeat (Work 1) 4 ++ repeat (Work 0) 30 ++
     repeat (Work 1) 2 ++ [Stop] ++ repeat (Work 1) 30 ++ repeat (Work 0) 30)
    (bench_init 42%nat).

(** [main] raises [done] while worker 0 is inside [prng()] and worker 1
    spins in [pthread_mutex_lock]. *)
Definition bench_stopping : bench :=
  bench_run (lay := addr0) S
    (repeat (Work 0) 3 ++ repeat (Work 1) 4 ++ [Stop]) (bench_init 42%nat).

(** ** Progress

    Measures for the fairness argument: how far a thread inside acquire is
    from its critical section, counted in steps of the thread that has to
    move next. *)

Section Progress.

Context {lay : Layout}.

(** An upper bound on the steps the owner itself takes before it passes the
    lock on or frees it: the longest way is the loads and stores of lines
    115, 145, 166, 168, 176, 180 and 183. *)
Definition steps_left (l : label) : nat :=
  match l with
  | AcqSpin => 7
  | Crit => 6
  | RelFastLoad => 5
  | RelCas => 4
  | RelXchg => 3
  | RelChkSucc | RelChkW => 2
  | RelStoreSucc | RelStoreW => 1
  | Idle | AcqXchg | Abort => 0
  end.

(** Inside [reciplock_acquire], or about to call it. *)
Definition acquiring (l : label) : Prop :=
  l = Idle \/ l = AcqXchg \/ l = AcqSpin.

(** The measure of a thread that has not yet exchanged the tail. *)
Definition doorway (n : nat) (l : label) : nat :=
  match l with
  | Idle => 14 * n + 10
  | _ => 14 * n + 9
  end.

(** [place n s t h E S k m]: with owner [h], entry segment [E] and arrivals
    [S], thread [t] is at distance [k] from the critical section and [m] is
    the thread whose step brings it closer. *)
Inductive place (n : nat) (s : state) (t h : nat) (E S : list nat) :
    nat -> nat -> Prop :=
  | place_owner :
      t = h -> place n s t h E S 1 t
  | place_entry E1 E2 :
      E = E1 ++ t :: E2 ->
      place n s t h E S (steps_left (pc (th s h)) + 7 * length E1 + 1) h
  | place_arrival :
      t ∈ S ->
      place n s t h E S
        (steps_left (pc (th s h)) + 7 * length E + 7 * n + 1) h
  | place_doorway :
      t <> h -> (t ∉ S ++ E) ->
      place n s t h E S (doorway n (pc (th s t))) t.

Definition rank (n : nat) (s : state) (t : nat) (k m : nat) : Prop :=
  (free s /\ k = doorway n (pc (th s t)) /\ m = t) \/
  (exists h E S b, held s h E S b /\ place n s t h E S k m).

(** A round of a fair schedule of [n] threads: every thread steps in it. *)
Definition fair_round (n : nat) (r : list nat) : Prop :=
  Forall (fun u => (u < n)%nat) r /\ forall u, (u < n)%nat -> u ∈ r.

(** The schedule reaches, at some point, a state where [t] is in its
    critical section. *)
Definition enters (sched : list nat) (s : state) (t : nat) : Prop :=
  exists pre suf, sched = pre ++ suf /\ pc (th (exec pre s) t) = Crit.

(** The schedule reaches, at some point, a state where [t] has returned from
    release. *)
Definition leaves (sched : list nat) (s : state) (t : nat) : Prop :=
  exists pre suf, sched = pre ++ suf /\ pc (th (exec pre s) t) = Idle.

(** How often [t] steps in a schedule. *)
Definition turns (t : nat) (sched : list nat) : nat :=
  length (filter (fun u => u = t) sched).

(** How often [u] returns from acquire along a schedule. *)
Fixpoint entries (u : nat) (sched : list nat) (s : state) : nat :=
  match sched with
  | [] => O
  | v :: sched' =>
      ((if decide (v = u)
        then if existsb is_acq_return (events v s) then 1 else 0
        else 0)
       + entries u sched' (step v s))%nat
  end.

Definition woken_bit (l : label) : nat :=
  match l with AcqSpin => 1 | _ => 0 end.

(** Whether [u] is served before the threads behind [E1]: it is in [E1], or
    it is the owner and has been woken but has not yet returned. *)
Definition first_credit (s : state) (u h : nat) (E1 : list nat) : nat :=
  if decide (u ∈ E1) then 1
  else if decide (u = h) then woken_bit (pc (th s h)) else 0.

(** [credit s t u h E S c]: while [t] waits, [u] can return from acquire at
    most [c] more times before [t] does. *)
Inductive credit (s : state) (t u h : nat) (E S : list nat) : nat -> Prop :=
  | credit_owner :
      t = h -> credit s t u h E S 0
  | credit_entry E1 E2 :
      E = E1 ++ t :: E2 ->
      credit s t u h E S (first_credit s u h E1)
  | credit_arrival S1 S2 :
      S = S1 ++ t :: S2 ->
      credit s t u h E S
        (first_credit s u h E + (if decide (u ∈ S2) then 0 else 1)).

Definition overtakes (s : state) (t u : nat) (c : nat) : Prop :=
  exists h E S b, held s h E S b /\ credit s t u h E S c.

(** What a worker of the benchmark still has to do once [done] is raised,
    counted in its own steps that change the state: at most one more turn
    through the lock, the final add, the return. *)
Definition work_left (wl : wlabel) (l : label) : nat :=
  match wl with
  | WExit => 0
  | WAdd => 1
  | WLoop => 2
  | WUnlock => 2 + steps_left l
  | WPrngWrite => 9
  | WPrngRead => 10
  | WLock =>
      match l with
      | Idle => 13
      | AcqXchg => 12
      | _ => 11
      end
  end.

Definition total_work_left {X : Type} (n : nat) (b : bench (X := X)) : nat :=
  sumn n (fun t => work_left (wpc b t) (pc (th (mutex b) t))).

(** A worker whose step changes nothing: it has returned, or it spins on its
    node. *)
Definition parked {X : Type} (b : bench (X := X)) (t : nat) : Prop :=
  wpc b t = WExit \/ (wpc b t = WLock /\ waiting (mutex b) t).

End Progress.

(** ** Pointer arithmetic *)

(** On a machine word of [W] bits, [~1] is [2 ^ W - 2]; for an address that
    fits the word, masking with it is what [clear_tag] computes. *)
Lemma clear_tag_word (W : Z) (p : ptr) :
  0 < W -> 0 <= p < 2 ^ W -> clear_tag p = Z.land p (2 ^ W - 2).
Proof.
  intros HW Hp. unfold clear_tag. apply Z.bits_inj'. intros n Hn.
  rewrite !Z.land_spec, Z.lnot_spec by lia.
  destruct (Z.testbit p n) eqn:Hb; [|done]. cbn.
  assert (n < W) as HnW.
  { destruct (decide (n < W)) as [|Hge]; [done|].
    rewrite (Z.bits_above_log2 p n) in Hb; [done|lia|].
    destruct (decide (p = 0)) as [->|]; [cbn; lia|].
    apply Z.log2_lt_pow2; [lia|].
    assert (2 ^ W <= 2 ^ n) by (apply Z.pow_le_mono_r; lia). lia. }
  replace (2 ^ W - 2) with (2 * Z.ones (W - 1)); cycle 1.
  { rewrite Z.ones_equiv. replace W with (Z.succ (W - 1)) at 2 by lia.
    rewrite Z.pow_succ_r by lia. lia. }
  destruct (decide (n = 0)) as [->|Hne].
  - by rewrite Z.testbit_even_0.
  - assert (Z.testbit 1 n = false) as ->.
    { replace 1 with (2 ^ 0) by reflexivity.
      rewrite Z.pow2_bits_eqb by lia. apply Z.eqb_neq. lia. }
    replace n with (Z.succ (n - 1)) by lia.
    rewrite Z.testbit_even_succ by lia.
    by rewrite Z.ones_spec_low by lia.
Qed.

Lemma clear_tag_div (p : ptr) : clear_tag p = 2 * (p / 2).
Proof.
  unfold clear_tag. apply Z.bits_inj'. intros n Hn.
  rewrite Z.land_spec, Z.lnot_spec by lia.
  destruct (decide (n = 0)) as [->|Hne].
  - rewrite Z.testbit_even_0. cbn. apply andb_false_r.
  - assert (Z.testbit 1 n = false) as ->.
    { replace 1 with (2 ^ 0) by reflexivity.
      rewrite Z.pow2_bits_eqb by lia. apply Z.eqb_neq. lia. }
    replace n with (Z.succ (n - 1)) at 2 by lia.
    rewrite Z.testbit_even_succ by lia.
    rewrite Z.div2_bits by lia.
    cbn. rewrite andb_true_r. f_equal. lia.
Qed.

(** X9. What line 110 makes of the old tail.  The result never carries the
    tag bit; it is null for NULL and LOCKED_EMPTY and for nothing else; a
    2-aligned address comes out unchanged; decoding twice is decoding once;
    and on a machine word of [W] bits the result is the word masked with
    [~1]. *)
Theorem clear_tag_decodes (p : ptr) :
  Z.even (clear_tag p) = true /\
  (clear_tag p = NULL <-> p = NULL \/ p = LOCKED_EMPTY) /\
  (Z.even p = true -> clear_tag p = p) /\
  clear_tag (clear_tag p) = clear_tag p /\
  (forall W, 0 < W -> 0 <= p < 2 ^ W -> clear_tag p = Z.land p (2 ^ W - 2)).
Proof.
  split; [|split; [|split; [|split]]];
    [..|intros W HW Hp; by apply clear_tag_word].
  all: rewrite !clear_tag_div; unfold NULL, LOCKED_EMPTY.
  all: pose proof (Z.div_mod p 2 ltac:(lia)) as Hd.
  all: pose proof (Z.mod_pos_bound p 2 ltac:(lia)) as Hm.
  - by rewrite Z.even_mul.
  - lia.
  - intros He. rewrite Zmod_even, He in Hd. lia.
  - assert (2 * (p / 2) / 2 = p / 2) as ->; [|done].
    rewrite (Z.mul_comm 2), Z.div_mul; lia.
Qed.

Section Safety.

Context {lay : Layout}.

(** ** Layout assumptions

    Every thread has its own node, nodes are at least 2-aligned (the struct
    holds one pointer), and no node sits at address 0. *)
Hypothesis addr_inj : forall t u, addr t = addr u -> t = u.
Hypothesis addr_aligned : forall t, Z.even (addr t) = true.
Hypothesis addr_nonnull : forall t, addr t <> NULL.

Lemma clear_tag_aligned p : Z.even p = true -> clear_tag p = p.
Proof.
  intros Hp. unfold clear_tag. apply Z.bits_inj'. intros n Hn.
  rewrite Z.land_spec, Z.lnot_spec by lia.
  destruct (decide (n = 0)) as [->|Hne].
  - rewrite Z.bit0_odd, <- Z.negb_even, Hp. reflexivity.
  - replace 1 with (2 ^ 0) by reflexivity.
    rewrite Z.pow2_bits_eqb by lia.
    destruct (Z.eqb_spec 0 n); [lia|]. simpl. apply andb_true_r.
Qed.

Lemma clear_tag_addr t : clear_tag (addr t) = addr t.
Proof. apply clear_tag_aligned, addr_aligned. Qed.

Lemma clear_tag_locked_empty : clear_tag LOCKED_EMPTY = NULL.
Proof. reflexivity. Qed.

Lemma addr_not_locked_empty t : addr t <> LOCKED_EMPTY.
Proof.
  intros H. pose proof (addr_aligned t) as He. rewrite H in He. discriminate.
Qed.

Lemma addr_neq t u : t <> u -> addr t <> addr u.
Proof. intros Hne Heq. apply Hne, addr_inj, Heq. Qed.

(** *** Frame lemmas *)

Lemma waiting_frame s s' e : same_at s s' e -> waiting s e -> waiting s' e.
Proof. intros [Ht Hn] [? ?]. split; congruence. Qed.

Lemma quiet_frame s s' e : same_at s s' e -> quiet s e -> quiet s' e.
Proof. intros [Ht Hn]. unfold quiet. rewrite Ht, Hn. done. Qed.

Lemma linked_frame s s' L : forall p m,
  (forall e, e ∈ L -> same_at s s' e) -> linked s p L m -> linked s' p L m.
Proof.
  induction L as [|e L IH]; simpl; intros p m Hs; [done|].
  intros (-> & Hw & Hl). split; [done|]. split.
  - apply (waiting_frame s); [apply Hs; left|done].
  - destruct (Hs e ltac:(left)) as [-> _].
    apply IH; [|done]. intros x Hx. apply Hs. by right.
Qed.

Lemma linked_waiting s L :
  forall p m e, linked s p L m -> e ∈ L -> waiting s e.
Proof.
  induction L as [|x L IH]; simpl; intros p m e Hl He.
  - by apply elem_of_nil in He.
  - destruct Hl as (_ & Hw & Hl). apply elem_of_cons in He as [->|He]; eauto.
Qed.

Lemma arrivals_waiting s S b e : arrivals s S b -> e ∈ S -> waiting s e.
Proof.
  destruct S as [|x S]; intros Ha He; [by apply elem_of_nil in He|].
  eapply linked_waiting; eauto.
Qed.

Lemma arrivals_frame s s' S b :
  tail s' = tail s -> (forall e, e ∈ S -> same_at s s' e) ->
  arrivals s S b -> arrivals s' S b.
Proof.
  intros Ht Hs. destruct S as [|x S]; simpl; [congruence|].
  rewrite Ht. apply (linked_frame s s' (x :: S)). done.
Qed.

Lemma handing_frame s s' p v E :
  (forall e, e ∈ E -> same_at s s' e) -> handing s p v E -> handing s' p v E.
Proof. intros Hs (Hl & Hf & Hm). split; [|done]. by apply (linked_frame s). Qed.

Lemma holds_frame s s' h E b :
  same_at s s' h -> (forall e, e ∈ E -> same_at s s' e) ->
  (tail s <> b -> tail s' <> b) ->
  holds s h E b -> holds s' h E b.
Proof.
  intros [Hth Hn] Hs Ht. unfold holds, has_succ, no_succ. rewrite Hth, Hn.
  destruct (pc (th s h)); try done.
  - intros (? & ? & ? & ?). eauto 10 using handing_frame.
  - intros [(? & ? & ? & ? & ?)|?]; [left|right]; eauto 10 using handing_frame.
  - intros (? & ? & ? & ? & ?); eauto 10 using handing_frame.
  - intros (? & ? & ? & ? & ?); eauto 10 using handing_frame.
  - intros [? ?]; eauto.
  - intros (? & ? & ? & ? & ?); eauto 10 using handing_frame.
  - intros (? & ? & ? & ? & ?); eauto 10 using handing_frame.
Qed.

(** *** Reading a state after a step *)

Ltac ne := first [done | intros ?%addr_inj; done].

Ltac unfold_tstep := unfold tstep, reciplock_acquire, reciplock_release.

Ltac unfold_steps :=
  unfold events, step; unfold_tstep;
  unfold acquire_reset, acquire_exchange, acquire_spin, release_enter,
    release_check_succ, release_store_succ, release_fast_load, release_cas,
    release_detach, release_check_w, release_store_w, abort.

Ltac mem := set_unfold; intuition congruence.

Ltac frame :=
  split; unfold at_thread; cbn [th next tail];
  rewrite ?fn_lookup_insert_ne by ne; reflexivity.

Ltac look :=
  unfold at_thread; cbn [th next tail];
  rewrite ?fn_lookup_insert;
  rewrite ?fn_lookup_insert_ne by ne;
  cbn [pc tail_prev succ w tls_successor tls_end_of_segment
       goto set_arrival set_w set_tls].

Lemma holds_base s h E b : holds s h E b -> b = LOCKED_EMPTY \/ b = addr h.
Proof.
  unfold holds, has_succ, no_succ. destruct (pc (th s h)); try done.
  all: try (intros (? & _); tauto).
  - intros [(? & _)|(-> & _ & _ & ?)]; tauto.
  - intros (-> & _ & _ & ?); tauto.
  - intros (-> & _ & _ & ?); tauto.
  - intros [(-> & _ & _ & ?) _]; tauto.
Qed.

Lemma holds_waiting s h E b e : holds s h E b -> e ∈ E -> waiting s e.
Proof.
  unfold holds, has_succ, no_succ, handing. intros H He.
  destruct (pc (th s h)); try done.
  - destruct H as (_ & _ & _ & Hl & _). eauto using linked_waiting.
  - destruct H as [(_ & _ & _ & _ & Hl & _)|(_ & _ & -> & _)];
      [eauto using linked_waiting|by apply elem_of_nil in He].
  - destruct H as (_ & _ & _ & _ & Hl & _). eauto using linked_waiting.
  - destruct H as (_ & _ & _ & _ & Hl & _). eauto using linked_waiting.
  - destruct H as (_ & _ & -> & _). by apply elem_of_nil in He.
  - destruct H as (_ & _ & -> & _). by apply elem_of_nil in He.
  - destruct H as [(_ & _ & -> & _) _]. by apply elem_of_nil in He.
  - destruct H as (_ & _ & _ & _ & Hl & _). eauto using linked_waiting.
  - destruct H as (_ & _ & _ & _ & Hl & _). eauto using linked_waiting.
Qed.

Lemma held_queued s h E S b e : held s h E S b -> e ∈ S ++ E -> waiting s e.
Proof.
  intros (_ & _ & _ & Ha & Hh) [He|He]%elem_of_app;
    eauto using arrivals_waiting, holds_waiting.
Qed.

Lemma arrivals_tail s S b :
  arrivals s S b ->
  (S = [] /\ tail s = b) \/ (exists x S', S = x :: S' /\ tail s = addr x).
Proof.
  destruct S as [|x S']; simpl; [by left|]. intros (? & _). right. eauto.
Qed.

(** *** Steps from a free lock *)

Lemma free_step_cfg s t :
  free s ->
  (pc (th s t) = Idle /\ free (step t s)) \/
  (pc (th s t) = AcqXchg /\ held (step t s) t [] [] (addr t)).
Proof.
  intros [Ht Hq]. unfold step; unfold_tstep.
  destruct (Hq t) as [Hpc|[Hpc Hn]]; rewrite Hpc.
  - left. split; [done|]. split; [done|]. intros u. cbn.
    destruct (decide (u = t)) as [->|Hne].
    + right. cbn. by rewrite !fn_lookup_insert.
    + apply (quiet_frame s); [frame|done].
  - unfold acquire_exchange. rewrite Ht.
    destruct (decide (NULL = addr t)) as [Heq|_];
      [by destruct (addr_nonnull t)|].
    rewrite decide_True by done. right. split; [done|].
    repeat split; cbn.
    + constructor.
    + apply not_elem_of_nil.
    + intros u Hne _. apply (quiet_frame s); [frame|done].
    + unfold holds, no_succ. look. tauto.
Qed.

Lemma free_step s t : free s -> Inv (step t s).
Proof.
  intros [[_ H]|[_ H]]%(free_step_cfg s t); [by left|right; eauto].
Qed.

(** *** Steps of the other threads while the lock is held *)

Lemma spin_again s t :
  waiting s t -> tstep t s = ([EvLoadNext (addr t) NULL], s).
Proof.
  intros [Hpc Hn]. unfold_tstep; unfold acquire_spin. rewrite Hpc, Hn.
  by rewrite decide_True.
Qed.

Lemma queued_step s h E S b t :
  held s h E S b -> t ∈ S ++ E -> step t s = s.
Proof.
  intros Hh Ht. unfold step.
  by rewrite (spin_again s t (held_queued _ _ _ _ _ _ Hh Ht)).
Qed.

Lemma held_tail s h E S b :
  held s h E S b ->
  tail s <> NULL /\ forall t, t <> h -> (t ∉ S ++ E) ->
    tail s <> addr t /\ clear_tag (tail s) <> addr t.
Proof.
  intros (_ & _ & _ & Ha & Hh).
  pose proof (holds_base _ _ _ _ Hh) as Hb.
  destruct (arrivals_tail _ _ _ Ha) as [[-> ->]|(x & S' & -> & ->)].
  - split; [destruct Hb as [->| ->]; [done|apply addr_nonnull]|].
    intros t Hne _. destruct Hb as [->| ->].
    + split; [apply not_eq_sym, addr_not_locked_empty|].
      rewrite clear_tag_locked_empty. apply not_eq_sym, addr_nonnull.
    + rewrite clear_tag_addr. split; ne.
  - split; [apply addr_nonnull|]. intros t _ Hni.
    rewrite clear_tag_addr.
    assert (x <> t) by mem. split; ne.
Qed.

Lemma held_intro s h E S b :
  NoDup (S ++ E) -> (h ∉ S ++ E) ->
  (forall t, t <> h -> (t ∉ S ++ E) -> quiet s t) ->
  arrivals s S b -> holds s h E b -> held s h E S b.
Proof. unfold held. tauto. Qed.

Lemma other_step_cfg s h E S b t :
  held s h E S b -> t <> h -> (t ∉ S ++ E) ->
  (pc (th s t) = Idle /\ held (step t s) h E S b) \/
  (pc (th s t) = AcqXchg /\ held (step t s) h E (t :: S) b).
Proof.
  intros Hheld Hne Hni.
  destruct (held_tail _ _ _ _ _ Hheld) as [Htl Hta].
  destruct (Hta t Hne Hni) as [Ht1 Ht2].
  destruct Hheld as (Hnd & Hh & Hq & Ha & Hhold).
  unfold step; unfold_tstep.
  destruct (Hq t Hne Hni) as [Hpc|[Hpc Hn]]; rewrite Hpc.
  - left. split; [done|]. apply held_intro; try done; cbn.
    + intros u Hu1 Hu2. destruct (decide (u = t)) as [->|Hut].
      * right. look. done.
      * apply (quiet_frame s); [frame|auto].
    + apply (arrivals_frame s); [done| |done]. intros e He.
      assert (e <> t) by mem. frame.
    + apply (holds_frame s); [frame| |done|done]. intros e He.
      assert (e <> t) by mem. frame.
  - unfold acquire_exchange. rewrite !decide_False by done.
    right. split; [done|]. apply held_intro; cbn.
    + constructor; done.
    + mem.
    + intros u Hu1 Hu2. apply (quiet_frame s); [|apply Hq; mem].
      assert (u <> t) by mem. frame.
    + split; [done|]. split; [by split; look|]. look.
      destruct (arrivals_tail _ _ _ Ha) as [[-> Hb]|(x & S' & -> & Hx)].
      * cbn. by rewrite Hb.
      * rewrite Hx, clear_tag_addr, <- Hx.
        apply (linked_frame s); [|done]. intros e He.
        assert (e <> t) by mem. frame.
    + apply (holds_frame s); [frame| |cbn|done].
      * intros e He. assert (e <> t) by mem. frame.
      * intros _. destruct (holds_base _ _ _ _ Hhold) as [->| ->].
        -- apply addr_not_locked_empty.
        -- ne.
Qed.

Lemma other_step s h E S b t :
  held s h E S b -> t <> h -> (t ∉ S ++ E) -> Inv (step t s).
Proof.
  intros Hheld Hne Hni. right.
  destruct (other_step_cfg _ _ _ _ _ _ Hheld Hne Hni) as [[_ H]|[_ H]]; eauto.
Qed.

(** *** Steps of the owner *)

Lemma held_frame_others s s' h E S :
  (forall e, e <> h -> same_at s s' e) ->
  (h ∉ S ++ E) ->
  (forall t, t <> h -> (t ∉ S ++ E) -> quiet s t) ->
  (forall t, t <> h -> (t ∉ S ++ E) -> quiet s' t) /\
  (forall e, e ∈ S -> same_at s s' e) /\
  (forall e, e ∈ E -> same_at s s' e).
Proof.
  intros Hs Hh Hq. split; [|split].
  - intros t Ht Hn. apply (quiet_frame s); auto.
  - intros e He. apply Hs. mem.
  - intros e He. apply Hs. mem.
Qed.

Lemma owner_spin s h E S b :
  held s h E S b -> pc (th s h) = AcqSpin -> held (step h s) h E S b.
Proof.
  intros (Hnd & Hh & Hq & Ha & Hhold) Hpc. unfold holds in Hhold.
  rewrite Hpc in Hhold. destruct Hhold as (-> & Hv0 & Hvh & Hl & Hf & Hm).
  unfold step; unfold_tstep; unfold acquire_spin.
  rewrite Hpc, !decide_False by done.
  case_decide as Hsv; cbn [snd].
  - (* line 122: the putative successor is the end-of-segment marker *)
    assert (E = []) as ->.
    { destruct E as [|e E']; [done|]. destruct Hl as (He & _).
      destruct (Hf e); [left|congruence]. }
    match goal with |- held ?s' _ _ _ _ =>
      destruct (held_frame_others s s' h [] S) as (Hq' & HS & _);
        [intros; frame|done|done|] end.
    apply held_intro; try done.
    + by apply (arrivals_frame s).
    + unfold holds, no_succ. look. tauto.
  - match goal with |- held ?s' _ _ _ _ =>
      destruct (held_frame_others s s' h E S) as (Hq' & HS & HE);
        [intros; frame|done|done|] end.
    apply held_intro; try done.
    + by apply (arrivals_frame s).
    + unfold holds, has_succ, no_succ. look. destruct E as [|e E'].
      * right. cbn in Hl. destruct Hm as [Hm|[o Hm]].
        -- rewrite Hm in *. tauto.
        -- rewrite Hm, clear_tag_addr in Hl. congruence.
      * left. split; [done|]. split.
        { destruct Hl as (-> & _). apply addr_nonnull. }
        split; [done|]. split; [done|].
        apply (handing_frame s); [done|]. by split.
Qed.

Lemma is_marker_nonnull v : is_marker v -> v <> NULL.
Proof. intros [->|[o ->]]; [done|apply addr_nonnull]. Qed.

(** A step of the owner that only moves its program point. *)
Lemma owner_goto s h E S b l :
  held s h E S b ->
  holds (at_thread h (goto l (th s h)) s) h E b ->
  held (at_thread h (goto l (th s h)) s) h E S b.
Proof.
  intros (Hnd & Hh & Hq & Ha & _) Hhold.
  destruct (held_frame_others s (at_thread h (goto l (th s h)) s) h E S)
    as (Hq' & HS & HE); [intros; frame|done|done|].
  apply held_intro; try done. by apply (arrivals_frame s).
Qed.

Lemma owner_enter s h E S b :
  held s h E S b -> pc (th s h) = Crit -> held (step h s) h E S b.
Proof.
  intros Hheld Hpc. destruct (held_tail _ _ _ _ _ Hheld) as [Htl _].
  pose proof Hheld as (_ & _ & _ & _ & Hhold).
  unfold holds in Hhold. rewrite Hpc in Hhold.
  unfold step; unfold_tstep; unfold release_enter. rewrite Hpc.
  destruct Hhold as [Hs|Hn].
  - pose proof Hs as (_ & Hsucc & _ & _ & _ & _ & Hm%is_marker_nonnull).
    rewrite !decide_False by done. apply owner_goto; [done|].
    unfold holds. look. unfold has_succ in *. look.
    destruct Hs as (? & ? & ? & ? & ?). repeat (split; [done|]).
    apply (handing_frame s); [|done]. intros e He.
    destruct Hheld as (_ & Hh & _). assert (e <> h) by mem. frame.
  - pose proof Hn as (_ & Hsucc & _ & Heos).
    assert (tls_end_of_segment (th s h) <> NULL).
    { destruct Heos as [->| ->]; [done|apply addr_nonnull]. }
    rewrite !decide_False, !decide_True by done. apply owner_goto; [done|].
    unfold holds. look. unfold no_succ in *. look. done.
Qed.

Lemma linked_head s p E m :
  E <> [] -> linked s p E m ->
  exists e E', E = e :: E' /\ p = addr e /\ waiting s e /\
               linked s (succ (th s e)) E' m.
Proof. destruct E as [|e E']; [done|]. intros _ (? & ? & ?). eauto 10. Qed.

Lemma owner_check_succ s h E S b :
  held s h E S b -> pc (th s h) = RelChkSucc -> held (step h s) h E S b.
Proof.
  intros Hheld Hpc. pose proof Hheld as (_ & Hh & _ & _ & Hhold).
  unfold holds in Hhold. rewrite Hpc in Hhold.
  pose proof Hhold as (_ & _ & HE & _ & Hl & _).
  destruct (linked_head _ _ _ _ HE Hl) as (e & E' & -> & Hp & [_ Hw] & _).
  unfold step; unfold_tstep; unfold release_check_succ. rewrite Hpc, Hp, Hw.
  rewrite decide_True by done.
  apply owner_goto; [done|]. unfold holds. look. unfold has_succ in *. look.
  destruct Hhold as (? & ? & ? & ? & ?). repeat (split; [done|]).
  apply (handing_frame s); [|done]. intros x Hx.
  assert (x <> h) by mem. frame.
Qed.

Lemma owner_check_w s h E S b :
  held s h E S b -> pc (th s h) = RelChkW -> held (step h s) h E S b.
Proof.
  intros Hheld Hpc. pose proof Hheld as (_ & Hh & _ & _ & Hhold).
  unfold holds in Hhold. rewrite Hpc in Hhold.
  pose proof Hhold as (_ & _ & HE & _ & Hl & _).
  destruct (linked_head _ _ _ _ HE Hl) as (e & E' & -> & Hp & [_ Hw] & _).
  unfold step; unfold_tstep; unfold release_check_w. rewrite Hpc, Hp, Hw.
  rewrite decide_True by done.
  apply owner_goto; [done|]. unfold holds. look.
  destruct Hhold as (? & ? & ? & ? & ?). repeat (split; [done|]).
  apply (handing_frame s); [|done]. intros x Hx.
  assert (x <> h) by mem. frame.
Qed.

Lemma owner_fast_load s h E S b :
  held s h E S b -> pc (th s h) = RelFastLoad -> held (step h s) h E S b.
Proof.
  intros Hheld Hpc. pose proof Hheld as (_ & _ & _ & _ & Hhold).
  unfold holds in Hhold. rewrite Hpc in Hhold.
  unfold step; unfold_tstep; unfold release_fast_load. rewrite Hpc.
  case_decide as Ht; cbn [snd].
  - apply owner_goto; [done|]. unfold holds. look. unfold no_succ in *.
    look. done.
  - apply owner_goto; [done|]. unfold holds. look. unfold no_succ in *.
    look. split; [done|]. destruct Hhold as (-> & _). done.
Qed.

Lemma owner_cas s h E S b :
  held s h E S b -> pc (th s h) = RelCas ->
  E = [] /\ ((S = [] /\ free (step h s)) \/ held (step h s) h [] S b).
Proof.
  intros Hheld Hpc. pose proof Hheld as (Hnd & Hh & Hq & Ha & Hhold).
  unfold holds in Hhold. rewrite Hpc in Hhold.
  pose proof Hhold as (Hb & Hsucc & -> & Heos). split; [done|].
  unfold step; unfold_tstep; unfold release_cas. rewrite Hpc.
  case_decide as Ht; cbn [snd].
  - (* the compare-exchange succeeds: nobody has arrived *)
    assert (S = []) as ->.
    { destruct (arrivals_tail _ _ _ Ha) as [[-> _]|(x & S' & -> & Hx)]; [done|].
      exfalso. rewrite Hx in Ht. destruct Heos as [He|He]; rewrite He in Ht.
      - by apply (addr_not_locked_empty x).
      - apply addr_inj in Ht. subst x. apply Hh. mem. }
    left. split; [done|]. split; [done|]. intros t. cbn.
    destruct (decide (t = h)) as [->|Hne]; [left; by look|].
    apply (quiet_frame s); [frame|]. apply Hq; [done|]. apply not_elem_of_nil.
  - right. apply owner_goto; [done|].
    unfold holds. look. unfold no_succ in *. look. split; [done|].
    by rewrite Hb.
Qed.

Lemma owner_detach s h E S b :
  held s h E S b -> pc (th s h) = RelXchg ->
  E = [] /\ held (step h s) h S [] LOCKED_EMPTY.
Proof.
  intros Hheld Hpc. pose proof Hheld as (Hnd & Hh & Hq & Ha & Hhold).
  unfold holds in Hhold. rewrite Hpc in Hhold.
  destruct Hhold as ((Hb & Hsucc & -> & Heos) & Hne). split; [done|].
  destruct (arrivals_tail _ _ _ Ha) as [[-> ?]|(x & S' & -> & Hx)]; [done|].
  rewrite app_nil_r in Hnd, Hh.
  assert (x <> h) as Hxh by mem.
  unfold step; unfold_tstep; unfold release_detach. rewrite Hpc, Hx.
  rewrite decide_False; cycle 1.
  { intros [?|[?|?]].
    - by apply (addr_nonnull x).
    - by apply (addr_not_locked_empty x).
    - by apply Hxh, addr_inj. }
  cbn [snd].
  apply held_intro.
  - done.
  - done.
  - intros t Ht Hn. apply (quiet_frame s); [frame|]. apply Hq; [done|].
    by rewrite app_nil_r.
  - done.
  - unfold holds. look. repeat (split; [done|]).
    split; [|split].
    + cbn [arrivals] in Ha. rewrite Hx, Hb in Ha.
      apply (linked_frame s); [|done]. intros e He.
      assert (e <> h) by mem. frame.
    + intros e He. destruct Heos as [->| ->].
      * apply not_eq_sym, addr_not_locked_empty.
      * assert (e <> h) by mem. ne.
    + destruct Heos as [->| ->]; [by left|right; eauto].
Qed.

(** Handing the lock to the head of the entry segment. *)
Lemma handoff_held s h e E' S v T :
  NoDup (S ++ e :: E') -> (h ∉ S ++ e :: E') ->
  (forall t, t <> h -> (t ∉ S ++ e :: E') -> quiet s t) ->
  arrivals s S LOCKED_EMPTY ->
  handing s (addr e) v (e :: E') ->
  pc T = Idle ->
  held (State (tail s) (<[addr e := v]> (next s)) (<[h := T]> (th s)))
       e E' S LOCKED_EMPTY.
Proof.
  intros Hnd Hh Hq Ha (Hl & Hf & Hm) HT.
  apply list.NoDup_app in Hnd
    as (HndS & Hdisj & [HeE' HndE]%list.NoDup_cons).
  assert (e <> h) as Heh by mem.
  assert (e ∉ S) as HeS by (intros He; apply (Hdisj e He); left).
  apply held_intro.
  - apply list.NoDup_app. split; [done|]. split; [|done].
    intros x Hx Hx'. apply (Hdisj x Hx). by right.
  - mem.
  - intros t Hte Ht. destruct (decide (t = h)) as [->|Hth].
    + left. by look.
    + apply (quiet_frame s); [frame|]. apply Hq; [done|]. mem.
  - apply (arrivals_frame s); [done| |done]. intros x Hx.
    assert (x <> h) by mem. assert (x <> e) by mem. frame.
  - destruct Hl as (_ & [Hpc _] & Hl). unfold holds. look. rewrite Hpc.
    split; [done|]. split; [by apply is_marker_nonnull|]. split.
    { apply Hf. left. }
    split; [|split; [|done]].
    + apply (linked_frame s); [|done]. intros x Hx.
      assert (x <> h) by mem. assert (x <> e) by mem. frame.
    + intros x Hx. apply Hf. by right.
Qed.

Lemma owner_store_succ s h E S b :
  held s h E S b -> pc (th s h) = RelStoreSucc ->
  exists e E', E = e :: E' /\ held (step h s) e E' S LOCKED_EMPTY.
Proof.
  intros (Hnd & Hh & Hq & Ha & Hhold) Hpc.
  unfold holds in Hhold. rewrite Hpc in Hhold.
  destruct Hhold as (-> & _ & HE & _ & Hhand).
  pose proof Hhand as (Hl & _).
  destruct (linked_head _ _ _ _ HE Hl) as (e & E' & -> & Hp & _).
  unfold step; unfold_tstep; unfold release_store_succ.
  rewrite Hpc, Hp in *. cbn [snd].
  exists e, E'. split; [done|]. by apply handoff_held.
Qed.

Lemma owner_store_w s h E S b :
  held s h E S b -> pc (th s h) = RelStoreW ->
  exists e E', E = e :: E' /\ held (step h s) e E' S LOCKED_EMPTY.
Proof.
  intros (Hnd & Hh & Hq & Ha & Hhold) Hpc.
  unfold holds in Hhold. rewrite Hpc in Hhold.
  destruct Hhold as (-> & _ & HE & _ & Hhand).
  pose proof Hhand as (Hl & _).
  destruct (linked_head _ _ _ _ HE Hl) as (e & E' & -> & Hp & _).
  unfold step; unfold_tstep; unfold release_store_w.
  rewrite Hpc, Hp in *. cbn [snd].
  exists e, E'. split; [done|]. by apply handoff_held.
Qed.

(** *** The invariant is inductive *)

(** What a step of the owner does to the queue: it leaves it alone, frees the
    lock, detaches the arrivals as the next entry segment, or passes the lock
    to the head of the entry segment. *)
Lemma owner_step_cfg s h E S b :
  held s h E S b ->
  held (step h s) h E S b \/
  (E = [] /\ S = [] /\ free (step h s)) \/
  (E = [] /\ pc (th s h) = RelXchg /\ held (step h s) h S [] LOCKED_EMPTY) \/
  (exists e E', E = e :: E' /\ held (step h s) e E' S LOCKED_EMPTY).
Proof.
  intros Hheld. destruct (pc (th s h)) eqn:Hpc.
  - destruct Hheld as (_ & _ & _ & _ & Hhold).
    unfold holds in Hhold. by rewrite Hpc in Hhold.
  - destruct Hheld as (_ & _ & _ & _ & Hhold).
    unfold holds in Hhold. by rewrite Hpc in Hhold.
  - left. by apply owner_spin.
  - left. by apply owner_enter.
  - left. by apply owner_check_succ.
  - right. right. right. by eapply owner_store_succ.
  - left. by apply owner_fast_load.
  - destruct (owner_cas _ _ _ _ _ Hheld Hpc) as [-> [[-> Hf]|Hh]]; auto.
  - destruct (owner_detach _ _ _ _ _ Hheld Hpc) as [-> Hh].
    right. right. left. done.
  - left. by apply owner_check_w.
  - right. right. right. by eapply owner_store_w.
  - destruct Hheld as (_ & _ & _ & _ & Hhold).
    unfold holds in Hhold. by rewrite Hpc in Hhold.
Qed.

Lemma owner_step s h E S b : held s h E S b -> Inv (step h s).
Proof.
  intros [H|[(_ & _ & H)|[(_ & _ & H)|(e & E' & _ & H)]]]%owner_step_cfg;
    [right; eauto|by left|right; eauto..].
Qed.

Lemma Inv_step s t : Inv s -> Inv (step t s).
Proof.
  intros [Hfree|(h & E & S & b & Hheld)]; [by apply free_step|].
  destruct (decide (t = h)) as [->|Hne]; [by eapply owner_step|].
  destruct (decide (t ∈ S ++ E)) as [Hin|Hni].
  - rewrite (queued_step _ _ _ _ _ _ Hheld Hin). right. eauto.
  - by eapply other_step.
Qed.

Lemma Inv_init : Inv init_state.
Proof. left. split; [done|]. intros t. by left. Qed.

Lemma reachable_Inv n s : reachable n s -> Inv s.
Proof. induction 1; [apply Inv_init|by apply Inv_step]. Qed.

Lemma reachable_exec n sched : forall s,
  reachable n s -> Forall (fun t => (t < n)%nat) sched ->
  reachable n (exec sched s).
Proof using Type.
  induction sched as [|t sched IH]; intros s Hs Hall; [done|].
  inversion_clear Hall as [|? ? Ht Hall']. cbn. apply IH; [|done].
  by constructor.
Qed.

(** *** Consequences of the invariant *)

Lemma active_not_queued s t :
  active (pc (th s t)) -> ~ quiet s t /\ ~ waiting s t.
Proof.
  intros (? & ? & ?). split; [intros [?|[? _]]|intros [? _]]; done.
Qed.

Lemma Inv_owner s t :
  Inv s -> ~ quiet s t -> ~ waiting s t ->
  exists h E S b, h = t /\ held s h E S b.
Proof.
  intros [[_ Hq]|(h & E & S & b & Hheld)] Hnq Hnw; [destruct (Hnq (Hq t))|].
  exists h, E, S, b. split; [|done].
  destruct (decide (h = t)) as [|Hne]; [done|]. exfalso.
  destruct (decide (t ∈ S ++ E)) as [Hin|Hni].
  - apply Hnw. eapply held_queued; eauto.
  - apply Hnq. destruct Hheld as (_ & _ & Hq & _). by apply Hq.
Qed.

Lemma held_unique s h E S b t :
  held s h E S b -> ~ quiet s t -> ~ waiting s t -> t = h.
Proof.
  intros Hheld Hnq Hnw. destruct (decide (t = h)) as [|Hne]; [done|]. exfalso.
  destruct (decide (t ∈ S ++ E)) as [Hin|Hni].
  - apply Hnw. eapply held_queued; eauto.
  - apply Hnq. destruct Hheld as (_ & _ & Hq & _). by apply Hq.
Qed.

Lemma Inv_holds s t :
  Inv s -> active (pc (th s t)) ->
  exists E S b, held s t E S b.
Proof.
  intros HI [Hnq Hnw]%active_not_queued.
  destruct (Inv_owner s t HI Hnq Hnw) as (h & E & S & b & -> & Hheld). eauto.
Qed.

Lemma Inv_active_unique s t u :
  Inv s -> active (pc (th s t)) -> active (pc (th s u)) -> t = u.
Proof.
  intros HI Ht [Hnq Hnw]%active_not_queued.
  destruct (Inv_holds s t HI Ht) as (E & S & b & Hheld).
  symmetry. eapply held_unique; eauto.
Qed.

Lemma Inv_no_abort s t : Inv s -> pc (th s t) <> Abort.
Proof.
  intros HI Hpc.
  destruct (Inv_holds s t HI) as (E & S & b & (_ & _ & _ & _ & Hh)).
  { rewrite Hpc. by repeat split. }
  unfold holds in Hh. by rewrite Hpc in Hh.
Qed.

(** A thread that finds its node written is the one being handed the lock. *)
Lemma Inv_woken s t :
  Inv s -> pc (th s t) = AcqSpin -> next s (addr t) <> NULL ->
  exists E S b, held s t E S b.
Proof.
  intros HI Hpc Hn.
  destruct (Inv_owner s t HI) as (h & E & S & b & -> & Hheld); eauto.
  - intros [?|[? _]]; congruence.
  - intros [_ ?]. done.
Qed.

(** No assert of the header fails. *)
Lemma no_assert_fails n s t : reachable n s -> pc (th s t) <> Abort.
Proof. intros HI%reachable_Inv. by apply Inv_no_abort. Qed.

(** A step of [u] leaves the other threads' records alone. *)
Lemma step_other s u t : t <> u -> th (step u s) t = th s t.
Proof using Type.
  clear addr_inj addr_aligned addr_nonnull.
  intros Hne. unfold_steps.
  destruct (pc (th s u)); repeat case_decide; cbn [snd]; by look.
Qed.

Lemma acq_return_crit s u r :
  EvAcqReturn r ∈ events u s -> pc (th (step u s) u) = Crit.
Proof using Type.
  clear addr_inj addr_aligned addr_nonnull.
  unfold_steps.
  destruct (pc (th s u)); repeat case_decide; cbn [fst snd]; intros Hin;
    try (by look); set_unfold; intuition discriminate.
Qed.

(** ** Mutual exclusion *)

(** C1. Whatever the number [n] of threads and however their atomic steps
    interleave, at most one thread is between its return from acquire and its
    call of release; and while [t] is there, no step of another thread is a
    return from acquire. *)
Theorem mutual_exclusion (n : nat) (s : state) :
  reachable n s ->
  (forall t u, pc (th s t) = Crit -> pc (th s u) = Crit -> t = u) /\
  (forall t u r, pc (th s t) = Crit -> u <> t -> EvAcqReturn r ∉ events u s).
Proof.
  intros HI%reachable_Inv. split.
  - intros t u Ht Hu. apply (Inv_active_unique s); [done| |].
    + rewrite Ht. by repeat split.
    + rewrite Hu. by repeat split.
  - intros t u r Ht Hne Hret%acq_return_crit. apply Hne.
    apply (Inv_active_unique (step u s)); [by apply Inv_step| |].
    + rewrite Hret. by repeat split.
    + rewrite step_other, Ht by done. by repeat split.
Qed.

(** ** Acquire *)

(** The spin loop is entered only on the contended path, with [succ] decoded
    from the value the exchange returned. *)
Lemma spin_decoded n s t :
  reachable n s -> pc (th s t) = AcqSpin ->
  tail_prev (th s t) <> NULL /\
  succ (th s t) = clear_tag (tail_prev (th s t)).
Proof.
  induction 1 as [|s u Hr IH Hu]; [done|].
  destruct (decide (t = u)) as [->|Hne]; [|by rewrite step_other].
  revert IH. unfold_steps.
  destruct (pc (th s u)) eqn:Hpc; repeat case_decide; cbn [snd]; look;
    try done; auto; intros; congruence.
Qed.

(** C2. On the contended path (the exchange returned [tail_prev], not Free,
    and [succ] is the successor decoded from it), once the caller's own
    [next] holds a non-null [handoff] the load of line 115 ends the acquire:
    if [succ] equals [handoff] the context is (none, LOCKED_EMPTY), otherwise
    it is ([succ], [handoff]). *)
Theorem acquire_disambiguates (n : nat) (s : state) (t : nat) (handoff : ptr) :
  reachable n s ->
  pc (th s t) = AcqSpin ->
  next s (addr t) = handoff -> handoff <> NULL ->
  let T := th s t in
  let T' := th (step t s) t in
  tail_prev T <> NULL /\ succ T = clear_tag (tail_prev T) /\
  pc T' = Crit /\
  events t s = [EvLoadNext (addr t) handoff; EvAcqReturn (tls_successor T')] /\
  (succ T = handoff ->
     tls_successor T' = NULL /\ tls_end_of_segment T' = LOCKED_EMPTY) /\
  (succ T <> handoff ->
     tls_successor T' = succ T /\ tls_end_of_segment T' = handoff).
Proof.
  intros Hr Hpc Hn Hh. cbn zeta.
  destruct (spin_decoded n s t Hr Hpc) as [Htp Hsucc].
  split; [done|]. split; [done|].
  destruct (Inv_woken s t (reachable_Inv n s Hr) Hpc) as (E & S & b & Hheld);
    [congruence|].
  destruct Hheld as (_ & _ & _ & _ & Hhold). unfold holds in Hhold.
  rewrite Hpc, Hn in Hhold. destruct Hhold as (_ & _ & Hself & _).
  unfold events, step; unfold_tstep; unfold acquire_spin. rewrite Hpc, Hn.
  rewrite !decide_False by done.
  case_decide as Hq; cbn [fst snd]; look; repeat split; done.
Qed.

(** C5. When the exchange of line 103 returns Free the acquire returns in that
    very step: no load of the caller's [next] happens, the successor is none
    and the end of segment is the caller's own node. *)
Theorem acquire_fast_path (s : state) (t : nat) :
  pc (th s t) = AcqXchg -> tail s = NULL ->
  let T' := th (step t s) t in
  events t s = [EvXchgTail (addr t) NULL; EvAcqReturn NULL] /\
  filter is_spin_load (events t s) = [] /\
  pc T' = Crit /\
  tls_successor T' = NULL /\ tls_end_of_segment T' = addr t /\
  tail (step t s) = addr t.
Proof.
  intros Hpc Ht. cbn zeta.
  unfold events, step; unfold_tstep; unfold acquire_exchange. rewrite Hpc, Ht.
  rewrite decide_False by (apply not_eq_sym, addr_nonnull).
  rewrite decide_True by done. cbn [fst snd]. look. done.
Qed.

(** ** Release *)

(** The owner's view at each point of release. *)
Lemma Inv_at s t l :
  Inv s -> pc (th s t) = l -> active l ->
  exists E S b, held s t E S b /\
    match l with
    | Crit => has_succ s t E b \/ no_succ s t E b
    | RelChkSucc | RelStoreSucc => has_succ s t E b
    | RelFastLoad | RelCas => no_succ s t E b
    | RelXchg => no_succ s t E b /\ tail s <> b
    | RelChkW | RelStoreW =>
        tls_successor (th s t) = NULL /\ E <> [] /\
        (tls_end_of_segment (th s t) = LOCKED_EMPTY \/
         tls_end_of_segment (th s t) = addr t) /\
        handing s (w (th s t)) (tls_end_of_segment (th s t)) E
    | _ => False
    end.
Proof.
  intros HI Hpc Hact. rewrite <- Hpc in Hact.
  destruct (Inv_holds s t HI Hact) as (E & S & b & Hheld).
  exists E, S, b. split; [done|].
  destruct Hheld as (_ & _ & _ & _ & Hhold). unfold holds in Hhold.
  rewrite Hpc in Hhold, Hact. destruct l; try done.
  - by destruct Hact as (_ & _ & ?).
  - tauto.
  - tauto.
Qed.

Lemma release_enter_succ s t :
  Inv s -> pc (th s t) = Crit -> tls_successor (th s t) <> NULL ->
  tstep t s = ([EvRelCall; EvLoadTail (tail s)],
               at_thread t (goto RelChkSucc (th s t)) s).
Proof.
  intros HI Hpc Hs.
  destruct (Inv_at s t Crit HI Hpc) as (E & S & b & Hheld & Hh);
    [by repeat split|].
  destruct (held_tail _ _ _ _ _ Hheld) as [Htl _].
  destruct Hh as [(_ & _ & _ & _ & _ & _ & Hm%is_marker_nonnull)|(_ & ? & _)];
    [|done].
  unfold_tstep; unfold release_enter. rewrite Hpc. by rewrite !decide_False.
Qed.

Lemma release_enter_nosucc s t :
  Inv s -> pc (th s t) = Crit -> tls_successor (th s t) = NULL ->
  tstep t s = ([EvRelCall; EvLoadTail (tail s)],
               at_thread t (goto RelFastLoad (th s t)) s).
Proof.
  intros HI Hpc Hs.
  destruct (Inv_at s t Crit HI Hpc) as (E & S & b & Hheld & Hh);
    [by repeat split|].
  destruct (held_tail _ _ _ _ _ Hheld) as [Htl _].
  destruct Hh as [(_ & ? & _)|(_ & _ & _ & Heos)]; [done|].
  assert (tls_end_of_segment (th s t) <> NULL).
  { destruct Heos as [->| ->]; [done|apply addr_nonnull]. }
  unfold_tstep; unfold release_enter. rewrite Hpc.
  repeat case_decide; done.
Qed.

Lemma release_check_succ_ok s t :
  Inv s -> pc (th s t) = RelChkSucc ->
  tls_successor (th s t) <> NULL /\
  next s (tls_successor (th s t)) = NULL /\
  tstep t s = ([EvLoadNext (tls_successor (th s t)) NULL],
               at_thread t (goto RelStoreSucc (th s t)) s).
Proof.
  intros HI Hpc.
  destruct (Inv_at s t RelChkSucc HI Hpc) as (E & S & b & Hheld & Hh);
    [by repeat split|].
  destruct Hh as (_ & Hs & HE & _ & Hl & _).
  destruct (linked_head _ _ _ _ HE Hl) as (e & E' & -> & Hp & [_ Hw] & _).
  rewrite <- Hp in Hw. split; [done|]. split; [done|].
  unfold_tstep; unfold release_check_succ. rewrite Hpc, Hw.
  by rewrite decide_True.
Qed.

Lemma release_detach_ok s t :
  Inv s -> pc (th s t) = RelXchg ->
  tail s <> NULL /\ tail s <> LOCKED_EMPTY /\ tail s <> addr t /\
  next s (tail s) = NULL /\
  tstep t s = ([EvXchgTail LOCKED_EMPTY (tail s)],
               at_thread t (goto RelChkW (set_w (tail s) (th s t)))
                         (State LOCKED_EMPTY (next s) (th s))).
Proof.
  intros HI Hpc.
  destruct (Inv_at s t RelXchg HI Hpc) as (E & S & b & Hheld & Hh);
    [by repeat split|].
  destruct Hh as ((_ & _ & -> & _) & Hne).
  destruct Hheld as (_ & Hni & _ & Ha & _).
  destruct (arrivals_tail _ _ _ Ha) as [[-> ?]|(x & S' & -> & Hx)]; [done|].
  assert (x <> t) as Hxt by mem.
  destruct Ha as (_ & [_ Hw] & _). rewrite Hx.
  assert (addr x <> addr t) by ne.
  pose proof (addr_nonnull x). pose proof (addr_not_locked_empty x).
  repeat (split; [done|]).
  unfold_tstep; unfold release_detach. rewrite Hpc, Hx.
  by rewrite decide_False by tauto.
Qed.

Lemma release_check_w_ok s t :
  Inv s -> pc (th s t) = RelChkW ->
  next s (w (th s t)) = NULL /\
  tstep t s = ([EvLoadNext (w (th s t)) NULL],
               at_thread t (goto RelStoreW (th s t)) s).
Proof.
  intros HI Hpc.
  destruct (Inv_at s t RelChkW HI Hpc) as (E & S & b & Hheld & Hh);
    [by repeat split|].
  destruct Hh as (_ & HE & _ & Hl & _).
  destruct (linked_head _ _ _ _ HE Hl) as (e & E' & -> & Hp & [_ Hw] & _).
  rewrite <- Hp in Hw. split; [done|].
  unfold_tstep; unfold release_check_w. rewrite Hpc, Hw. by rewrite decide_True.
Qed.

(** *** What is ever written *)

(** A thread that never steps stays as it was at start-up. *)
Lemma never_stepped n s t :
  reachable n s -> (n <= t)%nat -> th s t = th init_state t.
Proof using Type.
  clear addr_inj addr_aligned addr_nonnull.
  induction 1 as [|s u Hr IH Hu]; [done|]. intros Hn.
  rewrite step_other by lia. by apply IH.
Qed.

(** The pointers that release dereferences are nodes of threads that take
    part and are spinning. *)
Lemma release_target n s t :
  reachable n s ->
  (pc (th s t) = RelChkSucc \/ pc (th s t) = RelStoreSucc ->
     exists e, (e < n)%nat /\ tls_successor (th s t) = addr e /\ waiting s e) /\
  (pc (th s t) = RelChkW \/ pc (th s t) = RelStoreW ->
     exists e, (e < n)%nat /\ w (th s t) = addr e /\ waiting s e).
Proof.
  intros Hr. pose proof (reachable_Inv n s Hr) as HI.
  assert (forall e, waiting s e -> (e < n)%nat) as Hlt.
  { intros e [Hpc _]. destruct (decide (e < n)%nat) as [|Hge]; [done|].
    rewrite (never_stepped n s e) in Hpc by (done || lia). done. }
  split; intros Hpc.
  - assert (exists E b, has_succ s t E b) as (E & b & Hh).
    { destruct Hpc as [Hpc|Hpc];
        destruct (Inv_at s t _ HI Hpc) as (E & S & b & _ & Hh);
        try (by repeat split); eauto. }
    destruct Hh as (_ & _ & HE & _ & Hl & _).
    destruct (linked_head _ _ _ _ HE Hl) as (e & E' & -> & Hp & Hw & _).
    eauto.
  - assert (exists E, E <> [] /\
      handing s (w (th s t)) (tls_end_of_segment (th s t)) E)
      as (E & HE & Hl & _).
    { destruct Hpc as [Hpc|Hpc];
        destruct (Inv_at s t _ HI Hpc) as (E & S & b & _ & Hh);
        try (by repeat split); destruct Hh as (_ & ? & _ & ?); eauto. }
    destruct (linked_head _ _ _ _ HE Hl) as (e & E' & -> & Hp & Hw & _).
    eauto.
Qed.

(** Only the nodes of the [n] threads are ever written. *)
Lemma unwritten n s a :
  reachable n s -> (forall t, (t < n)%nat -> a <> addr t) -> next s a = NULL.
Proof.
  intros Hr Ha. induction Hr as [|s u Hr IH Hu]; [done|].
  destruct (release_target n s u Hr) as [Hsucc Hw].
  unfold_steps.
  destruct (pc (th s u)) eqn:Hpc; repeat case_decide; cbn [snd]; look;
    try done.
  - rewrite fn_lookup_insert_ne; [done|]. apply not_eq_sym. by apply Ha.
  - destruct Hsucc as (e & He & -> & _); [by right|].
    rewrite fn_lookup_insert_ne; [done|]. apply not_eq_sym. by apply Ha.
  - destruct Hw as (e & He & -> & _); [by right|].
    rewrite fn_lookup_insert_ne; [done|]. apply not_eq_sym. by apply Ha.
Qed.

(** C6. A release whose context has a successor runs through three steps:
    the asserting load of tail, the asserting load of the successor's [next],
    and one store of the end of segment into the successor's [next], after
    which it returns.  None of them writes tail, and no other [next] field
    changes.  The first three parts hold under any interleaving; the last one
    sums up a release that runs without interruption. *)
Theorem release_to_successor (n : nat) (s : state) (t : nat) :
  reachable n s ->
  tls_successor (th s t) <> NULL ->
  let T := th s t in
  let p := tls_successor T in
  let e := tls_end_of_segment T in
  let s' := step t s in
  (pc T = Crit ->
     events t s = [EvRelCall; EvLoadTail (tail s)] /\
     pc (th s' t) = RelChkSucc /\
     tail s' = tail s /\ forall a, next s' a = next s a) /\
  (pc T = RelChkSucc ->
     events t s = [EvLoadNext p NULL] /\
     pc (th s' t) = RelStoreSucc /\
     tail s' = tail s /\ forall a, next s' a = next s a) /\
  (pc T = RelStoreSucc ->
     events t s = [EvStoreNext p e; EvRelReturn] /\
     pc (th s' t) = Idle /\
     tail s' = tail s /\ next s' p = e /\
     forall a, a <> p -> next s' a = next s a) /\
  (pc T = Crit ->
     let run := (trace [t; t; t] s).*2 in
     let s3 := exec [t; t; t] s in
     filter is_store run = [EvStoreNext p e] /\
     filter writes_tail run = [] /\
     EvRelReturn ∈ run /\
     pc (th s3 t) = Idle /\
     tail s3 = tail s /\ next s3 p = e /\
     forall a, a <> p -> next s3 a = next s a).
Proof.
  intros HI%reachable_Inv Hs. cbn zeta. unfold events, step.
  split; [|split; [|split]]; intros Hpc.
  - rewrite release_enter_succ by done. cbn [fst snd]. by look.
  - destruct (release_check_succ_ok s t HI Hpc) as (_ & _ & ->).
    cbn [fst snd]. by look.
  - unfold_tstep; unfold release_store_succ. rewrite Hpc. cbn [fst snd]. look.
    repeat (split; [done|]). intros a Ha. by rewrite fn_lookup_insert_ne.
  - cbn [trace exec]. unfold events, step.
    rewrite release_enter_succ by done. cbn [fst snd].
    set (s1 := at_thread t (goto RelChkSucc (th s t)) s).
    assert (Inv s1) as HI1.
    { replace s1 with (step t s); [by apply Inv_step|].
      unfold step. by rewrite release_enter_succ. }
    assert (pc (th s1 t) = RelChkSucc) as Hpc1 by (subst s1; by look).
    destruct (release_check_succ_ok s1 t HI1 Hpc1) as (_ & _ & ->).
    cbn [fst snd].
    set (s2 := at_thread t (goto RelStoreSucc (th s1 t)) s1).
    assert (pc (th s2 t) = RelStoreSucc) as Hpc2 by (subst s2; by look).
    unfold_tstep; unfold release_store_succ. rewrite Hpc2. cbn [fst snd].
    subst s2 s1. look. cbn.
    split; [done|]. split; [done|]. split; [mem|].
    repeat (split; [done|]). intros a Ha. by rewrite fn_lookup_insert_ne.
Qed.

(** C4. On the slow path of release (no successor, reached at line 176) the
    exchange of tail with LOCKED_EMPTY returns a [w] that is not null, not
    LOCKED_EMPTY and not the releaser's own node, and whose [next] is null at
    that moment and stays null until the releaser writes it; release then
    stores the end of segment into [w]'s [next] and returns.  The first three
    parts hold under any interleaving; the last one sums up a release that
    runs without interruption. *)
Theorem release_slow_path (n : nat) (s : state) (t : nat) :
  reachable n s ->
  let T := th s t in
  let e := tls_end_of_segment T in
  let s' := step t s in
  (pc T = RelXchg ->
     tls_successor T = NULL /\
     tail s <> NULL /\ tail s <> LOCKED_EMPTY /\ tail s <> addr t /\
     next s (tail s) = NULL /\
     events t s = [EvXchgTail LOCKED_EMPTY (tail s)] /\
     pc (th s' t) = RelChkW /\ w (th s' t) = tail s /\
     tail s' = LOCKED_EMPTY) /\
  (pc T = RelChkW ->
     next s (w T) = NULL /\
     events t s = [EvLoadNext (w T) NULL] /\
     pc (th s' t) = RelStoreW /\ w (th s' t) = w T) /\
  (pc T = RelStoreW ->
     next s (w T) = NULL /\
     events t s = [EvStoreNext (w T) e; EvRelReturn] /\
     next s' (w T) = e /\ pc (th s' t) = Idle) /\
  (pc T = RelXchg ->
     (trace [t; t; t] s).*2 =
       [EvXchgTail LOCKED_EMPTY (tail s); EvLoadNext (tail s) NULL;
        EvStoreNext (tail s) e; EvRelReturn] /\
     pc (th (exec [t; t; t] s) t) = Idle /\
     next (exec [t; t; t] s) (tail s) = e).
Proof.
  intros HI%reachable_Inv. cbn zeta. unfold events, step.
  split; [|split; [|split]]; intros Hpc.
  - destruct (release_detach_ok s t HI Hpc) as (? & ? & ? & ? & ->).
    destruct (Inv_at s t RelXchg HI Hpc) as (E & S & b & _ & Hh);
      [by repeat split|].
    destruct Hh as ((_ & ? & _) & _). cbn [fst snd]. by look.
  - destruct (release_check_w_ok s t HI Hpc) as (? & ->).
    cbn [fst snd]. by look.
  - destruct (Inv_at s t RelStoreW HI Hpc) as (E & S & b & _ & Hh);
      [by repeat split|].
    destruct Hh as (_ & HE & _ & Hl & _).
    destruct (linked_head _ _ _ _ HE Hl) as (x & E' & -> & Hp & [_ Hw] & _).
    rewrite <- Hp in Hw.
    unfold_tstep; unfold release_store_w. rewrite Hpc. cbn [fst snd]. by look.
  - cbn [trace exec]. unfold events, step.
    destruct (release_detach_ok s t HI Hpc) as (_ & _ & _ & _ & Hstep).
    rewrite Hstep. cbn [fst snd].
    match goal with |- context [tstep t ?x] => set (s1 := x) end.
    assert (Inv s1) as HI1.
    { replace s1 with (step t s); [by apply Inv_step|].
      unfold step. by rewrite Hstep. }
    assert (pc (th s1 t) = RelChkW) as Hpc1 by (subst s1; by look).
    assert (w (th s1 t) = tail s) as Hw1 by (subst s1; by look).
    assert (tls_end_of_segment (th s1 t) = tls_end_of_segment (th s t)) as He1
      by (subst s1; by look).
    destruct (release_check_w_ok s1 t HI1 Hpc1) as (_ & ->).
    cbn [fst snd].
    set (s2 := at_thread t (goto RelStoreW (th s1 t)) s1).
    assert (pc (th s2 t) = RelStoreW) as Hpc2 by (subst s2; by look).
    unfold_tstep; unfold release_store_w. rewrite Hpc2. cbn [fst snd].
    subst s2. look. rewrite Hw1, He1. cbn. look. done.
Qed.

(** C3, as the code has it.  With no successor, release first loads tail
    (line 166).  Only when the loaded value is the end of segment does it try
    the compare-exchange of tail from the end of segment to Free; otherwise it
    goes to the slow path and no compare-exchange happens.  When the
    compare-exchange succeeds tail is Free, no [next] field is touched and
    release returns. *)
Theorem release_fast_path (n : nat) (s : state) (t : nat) :
  reachable n s ->
  let T := th s t in
  let e := tls_end_of_segment T in
  let s' := step t s in
  (pc T = Crit -> tls_successor T = NULL ->
     events t s = [EvRelCall; EvLoadTail (tail s)] /\
     pc (th s' t) = RelFastLoad) /\
  (pc T = RelFastLoad ->
     tls_successor T = NULL /\
     events t s = [EvLoadTail (tail s)] /\
     (tail s = e -> pc (th s' t) = RelCas) /\
     (tail s <> e -> pc (th s' t) = RelXchg)) /\
  (pc T = RelCas ->
     tls_successor T = NULL /\
     (tail s = e ->
        events t s = [EvCasTail e NULL true; EvRelReturn] /\
        tail s' = NULL /\ pc (th s' t) = Idle /\
        forall a, next s' a = next s a) /\
     (tail s <> e ->
        events t s = [EvCasTail e NULL false] /\
        tail s' = tail s /\ pc (th s' t) = RelXchg)).
Proof.
  intros HI%reachable_Inv. cbn zeta. unfold events, step.
  split; [|split].
  - intros Hpc Hs. rewrite release_enter_nosucc by done.
    cbn [fst snd]. by look.
  - intros Hpc.
    destruct (Inv_at s t RelFastLoad HI Hpc) as (E & S & b & _ & Hh);
      [by repeat split|].
    destruct Hh as (_ & ? & _). split; [done|].
    unfold_tstep; unfold release_fast_load. rewrite Hpc.
    case_decide; cbn [fst snd]; by look.
  - intros Hpc.
    destruct (Inv_at s t RelCas HI Hpc) as (E & S & b & _ & Hh);
      [by repeat split|].
    destruct Hh as (_ & ? & _). split; [done|].
    unfold_tstep; unfold release_cas. rewrite Hpc.
    case_decide; cbn [fst snd]; by look.
Qed.

(** C10. From the return of acquire to the end of the matching release the
    context in thread-local storage is well formed: the end of segment is never
    null; without a successor it is LOCKED_EMPTY or the caller's own node;
    with a successor, the successor is not the caller's own node and the end
    of segment is neither null nor the caller's own node. *)
Theorem context_well_formed (n : nat) (s : state) (t : nat) :
  reachable n s ->
  holding (pc (th s t)) = true ->
  let T := th s t in
  tls_end_of_segment T <> NULL /\
  (tls_successor T = NULL ->
     tls_end_of_segment T = LOCKED_EMPTY \/ tls_end_of_segment T = addr t) /\
  (tls_successor T <> NULL ->
     tls_successor T <> addr t /\
     tls_end_of_segment T <> NULL /\ tls_end_of_segment T <> addr t).
Proof.
  intros HI%reachable_Inv Hhold. cbn zeta.
  assert (active (pc (th s t))) as Hact.
  { destruct (pc (th s t)); try done; by repeat split. }
  destruct (Inv_at s t _ HI eq_refl Hact) as (E & S & b & Hheld & Hh).
  destruct Hheld as (_ & Hni & _).
  assert (forall v, v = LOCKED_EMPTY \/ v = addr t -> v <> NULL) as Hnn.
  { intros v [->| ->]; [done|apply addr_nonnull]. }
  assert (has_succ s t E b ->
    tls_successor (th s t) <> NULL /\ tls_successor (th s t) <> addr t /\
    tls_end_of_segment (th s t) <> NULL /\
    tls_end_of_segment (th s t) <> addr t) as Hsucc.
  { intros (_ & ? & HE & ? & Hl & _ & Hm%is_marker_nonnull).
    destruct (linked_head _ _ _ _ HE Hl) as (x & E' & -> & Hp & _).
    assert (x <> t) by mem. assert (addr x <> addr t) by ne.
    rewrite Hp in *. done. }
  assert (no_succ s t E b ->
    tls_successor (th s t) = NULL /\
    (tls_end_of_segment (th s t) = LOCKED_EMPTY \/
     tls_end_of_segment (th s t) = addr t)) as Hnone.
  { intros (_ & ? & _ & ?). done. }
  destruct (pc (th s t)); try done.
  - destruct Hh as [Hh|Hh]; [apply Hsucc in Hh|apply Hnone in Hh];
      intuition eauto.
  - apply Hsucc in Hh. intuition eauto.
  - apply Hsucc in Hh. intuition eauto.
  - apply Hnone in Hh. intuition eauto.
  - apply Hnone in Hh. intuition eauto.
  - destruct Hh as [Hh _]. apply Hnone in Hh. intuition eauto.
  - destruct Hh as (? & _ & ? & _). intuition eauto.
  - destruct Hh as (? & _ & ? & _). intuition eauto.
Qed.

(** ** Where the context lives *)

(** C9, as the code has it.  The context travels in thread-local storage.
    Every step of release is determined by the lock word, the [next] fields
    and the caller's own thread record, which holds [tls_successor] and
    [tls_end_of_segment]; whatever else differs between two states makes no
    difference to it.  Release reads the context there: the branch of line 147
    is taken on [tls_successor], and the stores of lines 151 and 183 write
    [tls_end_of_segment], the first one into the node [tls_successor] points
    to.  And the step in which acquire returns hands back the successor
    alone, which is also what it left in [tls_successor]. *)
Theorem context_in_thread_local_storage (s1 s2 : state) (t : nat) :
  holding (pc (th s1 t)) = true ->
  th s1 t = th s2 t ->
  tail s1 = tail s2 ->
  (forall a, next s1 a = next s2 a) ->
  (events t s1 = events t s2 /\
   th (step t s1) t = th (step t s2) t /\
   tail (step t s1) = tail (step t s2) /\
   forall a, next (step t s1) a = next (step t s2) a) /\
  ((pc (th s1 t) = Crit -> pc (th (step t s1) t) = RelChkSucc ->
      tls_successor (th s1 t) <> NULL) /\
   (pc (th s1 t) = Crit -> pc (th (step t s1) t) = RelFastLoad ->
      tls_successor (th s1 t) = NULL) /\
   (pc (th s1 t) = RelStoreSucc ->
      events t s1 =
        [EvStoreNext (tls_successor (th s1 t))
                     (tls_end_of_segment (th s1 t)); EvRelReturn] /\
      next (step t s1) (tls_successor (th s1 t)) =
        tls_end_of_segment (th s1 t)) /\
   (pc (th s1 t) = RelStoreW ->
      events t s1 =
        [EvStoreNext (w (th s1 t)) (tls_end_of_segment (th s1 t));
         EvRelReturn] /\
      next (step t s1) (w (th s1 t)) = tls_end_of_segment (th s1 t))) /\
  (forall s r, EvAcqReturn r ∈ events t s ->
     pc (th (step t s) t) = Crit /\ r = tls_successor (th (step t s) t)).
Proof using Type.
  clear addr_inj addr_aligned addr_nonnull.
  intros Hhold Hth Htl Hnx. split; [|split].
  - unfold_steps.
    rewrite <- Hth, <- Htl.
    destruct (pc (th s1 t)); try done; rewrite <- ?Hnx;
      repeat case_decide; cbn [fst snd]; look; rewrite <- ?Hth;
      repeat (split; [done|]); try done; intros a;
      unfold insert, fn_insert; case_decide; auto.
  - split; [|split; [|split]]; intros Hpc; unfold_steps; rewrite Hpc.
    + repeat case_decide; cbn [snd]; look; by intros ?.
    + repeat case_decide; cbn [snd]; look; by intros ?.
    + cbn [fst snd next]. split; [done|]. by rewrite fn_lookup_insert.
    + cbn [fst snd next]. split; [done|]. by rewrite fn_lookup_insert.
  - intros s r Hin. split; [by eapply acq_return_crit|]. revert Hin.
    unfold_steps.
    destruct (pc (th s t)); repeat case_decide; cbn [fst snd]; look;
      set_unfold; intuition congruence.
Qed.

(** ** One thread alone *)

Lemma solo_cycle s t :
  tail s = NULL -> pc (th s t) = Idle ->
  trace (cycle t) s =
    pair t <$> [EvStoreNext (addr t) NULL;
                EvXchgTail (addr t) NULL; EvAcqReturn NULL;
                EvRelCall; EvLoadTail (addr t);
                EvLoadTail (addr t);
                EvCasTail (addr t) NULL true; EvRelReturn] /\
  pc (th (exec [t; t] s) t) = Crit /\
  tail (exec (cycle t) s) = NULL /\
  pc (th (exec (cycle t) s) t) = Idle.
Proof.
  intros Ht Hpc. pose proof (addr_nonnull t) as Hnn.
  unfold cycle. cbn [trace exec]. unfold events, step.
  (* line 97 *)
  set (s1 := State (tail s) (<[addr t := NULL]> (next s))
                   (<[t := goto AcqXchg (th s t)]> (th s))).
  assert (tstep t s = ([EvStoreNext (addr t) NULL], s1)) as ->.
  { unfold_tstep. by rewrite Hpc. }
  cbn [fst snd].
  (* line 103: the lock is free *)
  set (s2 := at_thread t (goto Crit (set_tls NULL (addr t)
                            (set_arrival NULL NULL (th s1 t))))
               (State (addr t) (next s1) (th s1))).
  assert (tstep t s1 = ([EvXchgTail (addr t) NULL; EvAcqReturn NULL], s2))
    as ->.
  { unfold_tstep; unfold acquire_exchange. subst s2 s1. look. rewrite Ht.
    rewrite decide_False by done. by rewrite decide_True. }
  cbn [fst snd].
  (* lines 144-155 *)
  set (s3 := at_thread t (goto RelFastLoad (th s2 t)) s2).
  assert (tstep t s2 = ([EvRelCall; EvLoadTail (addr t)], s3)) as ->.
  { unfold_tstep; unfold release_enter. subst s3 s2. look.
    rewrite !decide_False by done. rewrite !decide_True by tauto. done. }
  cbn [fst snd].
  (* line 166 *)
  set (s4 := at_thread t (goto RelCas (th s3 t)) s3).
  assert (tstep t s3 = ([EvLoadTail (addr t)], s4)) as ->.
  { unfold_tstep; unfold release_fast_load. subst s4 s3 s2. look.
    by rewrite decide_True. }
  cbn [fst snd].
  (* line 168 *)
  assert (tstep t s4 =
    ([EvCasTail (addr t) NULL true; EvRelReturn],
     State NULL (next s4) (<[t := goto Idle (th s4 t)]> (th s4)))) as ->.
  { unfold_tstep; unfold release_cas. subst s4 s3 s2. look.
    by rewrite decide_True. }
  cbn [fst snd]. split; [done|]. split; [subst s2; by look|].
  split; [done|]. by look.
Qed.

(** C7. A single thread [t] runs [k] acquire/release pairs on a freshly
    initialised lock and then one more.  In that pair the exchange of acquire
    returns Free, acquire returns at once, the compare-exchange of release
    succeeds, and tail is Free again afterwards. *)
Theorem single_thread_fast_path (t : nat) (k : nat) :
  let s := Nat.iter k (exec (cycle t)) init_state in
  tail s = NULL /\ pc (th s t) = Idle /\
  trace (cycle t) s =
    pair t <$> [EvStoreNext (addr t) NULL;
                EvXchgTail (addr t) NULL; EvAcqReturn NULL;
                EvRelCall; EvLoadTail (addr t);
                EvLoadTail (addr t);
                EvCasTail (addr t) NULL true; EvRelReturn] /\
  pc (th (exec [t; t] s) t) = Crit /\
  tail (exec (cycle t) s) = NULL.
Proof.
  cbn zeta.
  assert (tail (Nat.iter k (exec (cycle t)) init_state) = NULL /\
          pc (th (Nat.iter k (exec (cycle t)) init_state) t) = Idle)
    as [Ht Hpc].
  { induction k as [|k [IHt IHpc]]; [done|]. cbn [Nat.iter].
    destruct (solo_cycle _ t IHt IHpc) as (_ & _ & ? & ?). done. }
  destruct (solo_cycle _ t Ht Hpc) as (? & ? & ? & _). done.
Qed.

(** ** Further properties of the protocol *)

Lemma assert_fail_aborts s t :
  EvAssertFail ∈ events t s -> pc (th (step t s) t) = Abort.
Proof using Type.
  clear addr_inj addr_aligned addr_nonnull.
  unfold_steps.
  destruct (pc (th s t)); repeat case_decide; cbn [fst snd]; intros Hin;
    try (by look); set_unfold; intuition discriminate.
Qed.

(** X1. None of the asserts of [reciplock_acquire] and [reciplock_release]
    ever fails: no thread is ever parked at [Abort], and no step fails an
    assert. *)
Theorem asserts_never_fail (n : nat) (s : state) (t : nat) :
  reachable n s ->
  pc (th s t) <> Abort /\ EvAssertFail ∉ events t s.
Proof.
  intros HI%reachable_Inv. split; [by apply Inv_no_abort|].
  intros Hin%assert_fail_aborts.
  by apply (Inv_no_abort (step t s) t (Inv_step s t HI)).
Qed.

(** X2. Every pointer that release dereferences, [tls_successor] at lines 148
    and 151 and [w] at lines 180 and 183, is the node of one of the [n]
    threads, and that thread is spinning in acquire with its [next] still
    null. *)
Theorem release_dereferences_waiting_node (n : nat) (s : state) (t : nat) :
  reachable n s ->
  (pc (th s t) = RelChkSucc \/ pc (th s t) = RelStoreSucc ->
     exists e, (e < n)%nat /\ e <> t /\
       tls_successor (th s t) = addr e /\
       pc (th s e) = AcqSpin /\ next s (addr e) = NULL) /\
  (pc (th s t) = RelChkW \/ pc (th s t) = RelStoreW ->
     exists e, (e < n)%nat /\ e <> t /\
       w (th s t) = addr e /\
       pc (th s e) = AcqSpin /\ next s (addr e) = NULL).
Proof.
  intros Hr. destruct (release_target n s t Hr) as [Hs Hw].
  split; intros Hpc.
  - destruct (Hs Hpc) as (e & ? & ? & [Hpe ?]). exists e.
    repeat (split; [done|]). split; [|done].
    intros ->. destruct Hpc; congruence.
  - destruct (Hw Hpc) as (e & ? & ? & [Hpe ?]). exists e.
    repeat (split; [done|]). split; [|done].
    intros ->. destruct Hpc; congruence.
Qed.

(** X3. Acquire and release write no [next] field but those of the nodes of
    the [n] threads: every store of a step goes to such a node, and every
    other address still holds what it held at start-up. *)
Theorem only_nodes_are_written (n : nat) (s : state) :
  reachable n s ->
  (forall t a v, (t < n)%nat -> EvStoreNext a v ∈ events t s ->
     exists e, (e < n)%nat /\ a = addr e) /\
  (forall a, (forall e, (e < n)%nat -> a <> addr e) ->
     next s a = next init_state a).
Proof.
  intros Hr. split; [|intros a Ha; by apply (unwritten n)].
  intros t a v Ht.
  destruct (release_target n s t Hr) as [Hsucc Hw].
  unfold_steps.
  destruct (pc (th s t)) eqn:Hpc; repeat case_decide; cbn [fst];
    intros Hin; set_unfold; try (intuition discriminate).
  - exists t. split; [done|]. intuition congruence.
  - destruct Hsucc as (e & ? & Hp & _); [by right|]. exists e.
    split; [done|]. rewrite <- Hp. intuition congruence.
  - destruct Hw as (e & ? & Hp & _); [by right|]. exists e.
    split; [done|]. rewrite <- Hp. intuition congruence.
Qed.

Lemma owns_not_queued s t : owns s t -> ~ quiet s t /\ ~ waiting s t.
Proof using Type.
  clear addr_inj addr_aligned addr_nonnull.
  intros [Hh|[Hpc Hn]].
  - apply active_not_queued. destruct (pc (th s t)); try done;
      by repeat split.
  - split; [intros [?|[? _]]; congruence|intros [_ ?]; done].
Qed.

Lemma held_owner_owns s h E S b : held s h E S b -> owns s h.
Proof using Type.
  clear addr_inj addr_aligned addr_nonnull.
  intros (_ & _ & _ & _ & Hh). unfold holds in Hh. unfold owns.
  destruct (pc (th s h)); try done; try (by left).
  right. split; [done|]. tauto.
Qed.

(** X4. The lock has at most one owner at any time, counting as owners the
    thread that holds it (up to the return of its release) and the spinning
    thread whose node has been written.  So a release never wakes two
    waiters, and never wakes one while somebody else still owns the lock. *)
Theorem single_owner (n : nat) (s : state) (t u : nat) :
  reachable n s -> owns s t -> owns s u -> t = u.
Proof.
  intros HI%reachable_Inv [Hq Hw]%owns_not_queued [Hq' Hw']%owns_not_queued.
  destruct (Inv_owner s t HI Hq Hw) as (h & E & S & b & -> & Hheld).
  symmetry. by eapply held_unique.
Qed.

Lemma waiting_took_part n s e :
  reachable n s -> pc (th s e) <> Idle -> (e < n)%nat.
Proof using Type.
  clear addr_inj addr_aligned addr_nonnull.
  intros Hr Hpc. destruct (decide (e < n)%nat) as [|Hge]; [done|].
  rewrite (never_stepped n s e) in Hpc by (done || lia). done.
Qed.

(** X6. What the lock word says.  It is null exactly when no thread owns the
    lock or waits for it; otherwise it is LOCKED_EMPTY or the node of one of
    the [n] threads. *)
Theorem tail_meaning (n : nat) (s : state) :
  reachable n s ->
  (tail s = NULL <-> forall t, outside s t) /\
  (tail s = NULL \/ tail s = LOCKED_EMPTY \/
   exists x, (x < n)%nat /\ tail s = addr x).
Proof.
  intros Hr. pose proof (reachable_Inv n s Hr) as HI.
  destruct HI as [[Ht Hq]|(h & E & S & b & Hheld)].
  - split; [|by left]. split; [|done]. intros _ t.
    destruct (Hq t) as [?|[? _]]; [by left|by right].
  - destruct (held_tail _ _ _ _ _ Hheld) as [Hnn _].
    pose proof (held_owner_owns _ _ _ _ _ Hheld) as Ho.
    split.
    + split; [done|]. intros Hall. exfalso.
      destruct (owns_not_queued s h Ho) as [Hq _]. apply Hq.
      destruct (Hall h) as [?|?]; [by left|].
      destruct Ho as [Hh|[Hpc _]]; [|congruence].
      destruct (pc (th s h)); done.
    + right. destruct Hheld as (_ & _ & _ & Ha & Hh).
      destruct (arrivals_tail _ _ _ Ha) as [[-> ->]|(x & S' & -> & ->)].
      * destruct (holds_base _ _ _ _ Hh) as [->| ->]; [by left|].
        right. exists h. split; [|done].
        apply (waiting_took_part n s h Hr).
        destruct Ho as [Hho|[Hpc _]]; [|congruence].
        destruct (pc (th s h)); done.
      * right. exists x. split; [|done].
        apply (waiting_took_part n s x Hr).
        destruct Ha as (_ & [Hpc _] & _). congruence.
Qed.

(** The owner is never stuck: its next step moves it on. *)
Lemma owner_moves s h :
  Inv s -> owns s h -> pc (th (step h s) h) <> pc (th s h).
Proof.
  intros HI Ho. destruct (owns_not_queued s h Ho) as [Hq Hw].
  destruct (Inv_owner s h HI Hq Hw) as (? & E & S & b & -> & Hheld).
  pose proof Hheld as (_ & _ & _ & _ & Hh). unfold holds in Hh.
  unfold step. destruct (pc (th s h)) eqn:Hpc; try done.
  - destruct Hh as (_ & ? & ? & _).
    unfold_tstep; unfold acquire_spin. rewrite Hpc.
    rewrite !decide_False by done. case_decide; cbn [snd]; by look.
  - destruct (decide (tls_successor (th s h) = NULL)).
    + rewrite release_enter_nosucc by done. cbn [snd]. by look.
    + rewrite release_enter_succ by done. cbn [snd]. by look.
  - destruct (release_check_succ_ok s h HI Hpc) as (_ & _ & ->).
    cbn [snd]. by look.
  - unfold_tstep; unfold release_store_succ. rewrite Hpc. cbn [snd]. by look.
  - unfold_tstep; unfold release_fast_load. rewrite Hpc.
    case_decide; cbn [snd]; by look.
  - unfold_tstep; unfold release_cas. rewrite Hpc.
    case_decide; cbn [snd]; by look.
  - destruct (release_detach_ok s h HI Hpc) as (_ & _ & _ & _ & ->).
    cbn [snd]. by look.
  - destruct (release_check_w_ok s h HI Hpc) as (_ & ->).
    cbn [snd]. by look.
  - unfold_tstep; unfold release_store_w. rewrite Hpc. cbn [snd]. by look.
Qed.

(** X7. No thread spins on a lock that nobody owns.  Whenever a thread is
    in the spin loop with its [next] still null, another of the [n] threads
    owns the lock, and that owner is not blocked: its next step takes it to
    another program point. *)
Theorem waiter_has_moving_owner (n : nat) (s : state) (t : nat) :
  reachable n s ->
  pc (th s t) = AcqSpin -> next s (addr t) = NULL ->
  exists h, (h < n)%nat /\ h <> t /\ owns s h /\
            pc (th (step h s) h) <> pc (th s h).
Proof.
  intros Hr Hpc Hn. pose proof (reachable_Inv n s Hr) as HI.
  destruct HI as [[_ Hq]|(h & E & S & b & Hheld)].
  - destruct (Hq t) as [?|[? _]]; congruence.
  - pose proof (held_owner_owns _ _ _ _ _ Hheld) as Ho.
    exists h. split; [|split; [|split; [done|]]].
    + apply (waiting_took_part n s h Hr).
      destruct Ho as [Hh|[? _]]; [|congruence].
      destruct (pc (th s h)); done.
    + intros ->. destruct (owns_not_queued s t Ho) as [_ Hw]. by apply Hw.
    + apply owner_moves; [by eapply reachable_Inv|done].
Qed.

(** X5. When a release returns, the lock is either free, with every thread
    outside it and no [next] field touched, or handed to exactly one of the
    threads that were spinning: that thread's [next] now holds the releaser's
    end of segment, which is not null, every other address keeps its [next],
    and so no other thread's [next] has changed. *)
Theorem release_frees_or_hands_over (n : nat) (s : state) (t : nat) :
  reachable n s ->
  EvRelReturn ∈ events t s ->
  let s' := step t s in
  pc (th s' t) = Idle /\
  (forall u, u <> t -> th s' u = th s u) /\
  ((tail s' = NULL /\ (forall u, outside s' u) /\
    forall a, next s' a = next s a) \/
   (exists e, (e < n)%nat /\ e <> t /\
      pc (th s e) = AcqSpin /\ next s (addr e) = NULL /\
      pc (th s' e) = AcqSpin /\
      next s' (addr e) = tls_end_of_segment (th s t) /\
      next s' (addr e) <> NULL /\
      (forall a, a <> addr e -> next s' a = next s a) /\
      (forall u, next s' (addr u) <> next s (addr u) -> u = e))).
Proof.
  intros Hr. pose proof (reachable_Inv n s Hr) as HI. cbn zeta.
  destruct (release_target n s t Hr) as [Hsucc Hw].
  pose proof (Inv_step s t HI) as HI'.
  assert (forall u, u <> t -> th (step t s) u = th s u) as Hothers
    by (intros u Hu; by apply step_other).
  revert HI' Hothers.
  unfold_steps.
  destruct (pc (th s t)) eqn:Hpc; repeat case_decide; cbn [fst snd];
    intros HI' Hothers Hin;
    try (exfalso; clear -Hin; set_unfold; intuition discriminate); clear Hin.
  - (* line 151 *)
    destruct Hsucc as (e & ? & Hp & [Hpe Hne]); [by right|].
    assert (e <> t) by (intros ->; congruence).
    destruct (Inv_at s t _ HI Hpc) as (E & S & b & _ & Hh);
      [by repeat split|].
    destruct Hh as (_ & _ & _ & _ & _ & _ & Hm%is_marker_nonnull).
    look. split; [done|]. split; [done|]. right. exists e. rewrite Hp. look.
    repeat (split; [done|]).
    assert (forall a, a <> addr e ->
              <[addr e := tls_end_of_segment (th s t)]> (next s) a = next s a)
      as Hframe by (intros a Ha; by rewrite fn_lookup_insert_ne).
    split; [done|]. intros u Hu. destruct (decide (u = e)) as [|Hue]; [done|].
    destruct Hu. apply Hframe. ne.
  - (* line 168, the compare-exchange succeeded *)
    look. split; [done|]. split; [done|]. left. split; [done|].
    split; [|done].
    destruct HI' as [[_ Hq]|(h & E & S & b & Hheld)].
    + intros u. destruct (Hq u) as [?|[? _]]; [by left|by right].
    + by destruct (held_tail _ _ _ _ _ Hheld) as [? _].
  - (* line 183 *)
    destruct Hw as (e & ? & Hp & [Hpe Hne]); [by right|].
    assert (e <> t) by (intros ->; congruence).
    destruct (Inv_at s t _ HI Hpc) as (E & S & b & _ & Hh);
      [by repeat split|].
    destruct Hh as (_ & _ & Heos & _).
    assert (tls_end_of_segment (th s t) <> NULL).
    { destruct Heos as [->| ->]; [done|apply addr_nonnull]. }
    look. split; [done|]. split; [done|]. right. exists e. rewrite Hp. look.
    repeat (split; [done|]).
    assert (forall a, a <> addr e ->
              <[addr e := tls_end_of_segment (th s t)]> (next s) a = next s a)
      as Hframe by (intros a Ha; by rewrite fn_lookup_insert_ne).
    split; [done|]. intros u Hu. destruct (decide (u = e)) as [|Hue]; [done|].
    destruct Hu. apply Hframe. ne.
Qed.

(** X8. A node's [next] is written once per acquisition.  While a thread
    spins, a value written to its [next] stays there until the thread reads
    it; and the only step that changes its [next] is the last step of the
    owner's release, which writes the owner's end of segment. *)
Theorem handoff_written_once (n : nat) (s : state) (e u : nat) :
  reachable n s ->
  pc (th s e) = AcqSpin -> u <> e ->
  let s' := step u s in
  (next s (addr e) <> NULL -> next s' (addr e) = next s (addr e)) /\
  (next s' (addr e) <> next s (addr e) ->
     owns s u /\ EvRelReturn ∈ events u s /\
     next s (addr e) = NULL /\
     next s' (addr e) = tls_end_of_segment (th s u)).
Proof.
  intros Hr Hpe Hne. cbn zeta.
  destruct (release_target n s u Hr) as [Hsucc Hw].
  assert (addr u <> addr e) as Hau by ne.
  unfold owns. unfold_steps.
  destruct (pc (th s u)) eqn:Hpc; repeat case_decide; cbn [fst snd]; look;
    try (split; intros; done).
  - destruct Hsucc as (x & _ & Hp & [_ Hnx]); [by right|]. rewrite Hp.
    destruct (decide (x = e)) as [->|Hxe].
    + look. split; [done|]. intros _.
      split; [by left|]. split; [rewrite !elem_of_cons; auto|done].
    + assert (addr x <> addr e) by ne. look. split; intros; done.
  - destruct Hw as (x & _ & Hp & [_ Hnx]); [by right|]. rewrite Hp.
    destruct (decide (x = e)) as [->|Hxe].
    + look. split; [done|]. intros _.
      split; [by left|]. split; [rewrite !elem_of_cons; auto|done].
    + assert (addr x <> addr e) by ne. look. split; intros; done.
Qed.

(** ** Progress *)

Lemma steps_left_le l : (steps_left l <= 7)%nat.
Proof using Type. clear. destruct l; cbn; lia. Qed.

Lemma release_progress s t :
  holding (pc (th s t)) = true -> pc (th (step t s) t) <> Abort ->
  pc (th (step t s) t) = Idle \/
  (holding (pc (th (step t s) t)) = true /\
   (steps_left (pc (th (step t s) t)) < steps_left (pc (th s t)))%nat).
Proof using Type.
  clear. unfold_steps.
  destruct (pc (th s t)); try done; repeat case_decide; cbn; look;
    intros ? ?; try done;
    first [by left | right; split; [done|cbn; lia]].
Qed.

Lemma exec_app l1 l2 s : exec (l1 ++ l2) s = exec l2 (exec l1 s).
Proof using Type.
  clear. revert s. induction l1 as [|u l1 IH]; intros s; [done|]. apply IH.
Qed.

Lemma leaves_cons u sched s t : leaves sched (step u s) t -> leaves (u :: sched) s t.
Proof using Type.
  clear. intros (pre & suf & -> & Hpc). by exists (u :: pre), suf.
Qed.

Lemma enters_cons u sched s t : enters sched (step u s) t -> enters (u :: sched) s t.
Proof using Type.
  clear. intros (pre & suf & -> & Hpc). by exists (u :: pre), suf.
Qed.

Lemma enters_app l sched s t : enters sched (exec l s) t -> enters (l ++ sched) s t.
Proof using Type.
  clear. intros (pre & suf & -> & Hpc). exists (l ++ pre), suf.
  split; [by rewrite app_assoc|]. by rewrite exec_app.
Qed.

(** X14. [reciplock_release] is wait-free: whatever the other threads do in
    between, the caller returns after at most six atomic steps of its own
    (fewer when it is further along), and no assertion stops it. *)
Theorem release_wait_free (n : nat) (s : state) (t : nat) (sched : list nat) :
  reachable n s ->
  holding (pc (th s t)) = true ->
  Forall (fun u => (u < n)%nat) sched ->
  (steps_left (pc (th s t)) <= turns t sched)%nat ->
  leaves sched s t.
Proof.
  intros Hr Hh Hall. revert s Hr Hh.
  induction Hall as [|u sched Hu Hall IH]; intros s Hr Hh Hk.
  { destruct (pc (th s t)); try done; cbn in Hk; lia. }
  assert (reachable n (step u s)) as Hr' by by constructor.
  apply leaves_cons. unfold turns in Hk.
  destruct (decide (u = t)) as [->|Hne].
  - rewrite filter_cons_True in Hk by done. cbn in Hk.
    destruct (release_progress s t Hh
                (Inv_no_abort _ t (reachable_Inv n _ Hr'))) as [Hi|[Hh' Hlt]].
    + by exists [], sched.
    + apply IH; [done|done|]. unfold turns. lia.
  - rewrite filter_cons_False in Hk by done.
    apply IH; [done| |]; by rewrite step_other.
Qed.

(** *** Every acquire returns *)

Lemma held_members_lt n s h E S b e :
  reachable n s -> held s h E S b -> e ∈ S ++ E -> (e < n)%nat.
Proof.
  intros Hr Hheld He.
  destruct (held_queued _ _ _ _ _ _ Hheld He) as [Hpc _].
  destruct (decide (e < n)%nat) as [|Hge]; [done|].
  rewrite (never_stepped n s e) in Hpc by (done || lia). done.
Qed.

Lemma held_owner_lt n s h E S b :
  reachable n s -> held s h E S b -> (h < n)%nat.
Proof.
  intros Hr (_ & _ & _ & _ & Hhold).
  destruct (decide (h < n)%nat) as [|Hge]; [done|].
  unfold holds in Hhold.
  rewrite (never_stepped n s h) in Hhold by (done || lia). done.
Qed.

Lemma held_owner_pc s h E S b :
  held s h E S b ->
  (1 <= steps_left (pc (th s h)))%nat /\ pc (th s h) <> Idle /\
  pc (th s h) <> AcqXchg.
Proof.
  intros (_ & _ & _ & _ & Hhold). unfold holds in Hhold.
  destruct (pc (th s h)); try done; cbn; repeat split; (lia || done).
Qed.

Lemma bounded_length (l : list nat) n :
  NoDup l -> (forall x, x ∈ l -> (x < n)%nat) -> (length l <= n)%nat.
Proof using Type.
  clear. intros Hnd Hlt.
  pose proof (submseteq_length l (seq 0 n)) as Hle.
  rewrite length_seq in Hle. apply Hle, NoDup_submseteq; [done|].
  intros x Hx. apply elem_of_seq. specialize (Hlt x Hx). lia.
Qed.

Lemma held_length n s h E S b :
  reachable n s -> held s h E S b -> (length S + length E <= n)%nat.
Proof.
  intros Hr Hheld. rewrite <- length_app. apply bounded_length.
  - by destruct Hheld.
  - intros x Hx. by eapply held_members_lt.
Qed.

Lemma woken_step_crit s h E S b :
  held s h E S b -> pc (th s h) = AcqSpin -> pc (th (step h s) h) = Crit.
Proof.
  intros (_ & _ & _ & _ & Hhold) Hpc. unfold holds in Hhold.
  rewrite Hpc in Hhold. destruct Hhold as (_ & Hv0 & Hvh & _).
  unfold_steps. rewrite Hpc, !decide_False by done.
  by case_decide; cbn; look.
Qed.

Lemma idle_step_frame s t :
  pc (th s t) = Idle -> next s (addr t) = NULL ->
  tail (step t s) = tail s /\
  (forall a, next (step t s) a = next s a) /\
  (forall u, u <> t -> th (step t s) u = th s u).
Proof using Type.
  clear. intros Hpc Hn. split; [|split].
  - unfold_steps. by rewrite Hpc.
  - intros a. unfold_steps. rewrite Hpc. cbn.
    destruct (decide (a = addr t)) as [->|Ha].
    + by rewrite fn_lookup_insert.
    + by rewrite fn_lookup_insert_ne.
  - intros u Hu. by apply step_other.
Qed.

Lemma idle_step_pc s t :
  pc (th s t) = Idle -> pc (th (step t s) t) = AcqXchg.
Proof using Type. clear. intros Hpc. unfold_steps. rewrite Hpc. cbn. by look. Qed.

Lemma free_exchange_crit s t :
  free s -> pc (th s t) = AcqXchg -> pc (th (step t s) t) = Crit.
Proof.
  intros [Ht _] Hpc. unfold_steps. rewrite Hpc, Ht.
  rewrite decide_False by (apply not_eq_sym, addr_nonnull).
  rewrite decide_True by done. cbn. by look.
Qed.

Lemma owner_steps_left s h E S b b' :
  held s h E S b -> held (step h s) h E S b' ->
  (steps_left (pc (th (step h s) h)) < steps_left (pc (th s h)))%nat.
Proof.
  intros Hheld Hheld'.
  destruct (held_owner_pc _ _ _ _ _ Hheld') as (_ & Hni & _).
  pose proof Hheld as (_ & _ & _ & _ & Hhold). unfold holds in Hhold.
  assert (pc (th (step h s) h) <> Abort) as Hna.
  { intros Ha. destruct Hheld' as (_ & _ & _ & _ & Hhold').
    unfold holds in Hhold'. by rewrite Ha in Hhold'. }
  destruct (decide (pc (th s h) = AcqSpin)) as [Hpc|Hpc].
  - rewrite (woken_step_crit _ _ _ _ _ Hheld Hpc), Hpc. cbn. lia.
  - destruct (release_progress s h) as [?|[_ ?]]; try done.
    by destruct (pc (th s h)).
Qed.

Lemma owner_acquiring s h E S b :
  held s h E S b -> acquiring (pc (th s h)) -> pc (th (step h s) h) = Crit.
Proof.
  intros Hheld Hacq. destruct (held_owner_pc _ _ _ _ _ Hheld) as (_ & ? & ?).
  destruct Hacq as [?|[?|Hpc]]; [done..|]. by eapply woken_step_crit.
Qed.

Lemma rank_free_step n s t u :
  free s -> (doorway n (pc (th s t)) <= 14 * n + 10)%nat ->
  pc (th (step u s) t) = Crit \/
  exists k' m', rank n (step u s) t k' m' /\
    ((k' < doorway n (pc (th s t)))%nat \/
     (k' = doorway n (pc (th s t)) /\ m' = t /\ u <> t)).
Proof.
  intros Hfree _. destruct (decide (u = t)) as [->|Hne].
  - destruct (free_step_cfg s t Hfree) as [[Hpc Hf]|[Hpc Hh]].
    + right. exists (doorway n (pc (th (step t s) t))), t.
      split; [by left|]. left. rewrite (idle_step_pc s t Hpc), Hpc. cbn. lia.
    + left. by apply free_exchange_crit.
  - right. exists (doorway n (pc (th s t))), t. split; [|by right].
    rewrite <- (step_other s u t) by done.
    destruct (free_step_cfg s u Hfree) as [[_ Hf]|[_ Hh]]; [by left|].
    right. exists u, [], [], (addr u). split; [done|].
    apply place_doorway; [done|]. apply not_elem_of_nil.
Qed.

Lemma rank_queued_step n s t u h E S b k m :
  held s h E S b -> place n s t h E S k m -> u ∈ S ++ E ->
  exists k' m', rank n (step u s) t k' m' /\
    ((k' < k)%nat \/ (k' = k /\ m' = m /\ u <> m)).
Proof.
  intros Hheld Hpl Hin. rewrite (queued_step _ _ _ _ _ _ Hheld Hin).
  exists k, m. split; [right; eauto 10|]. right. split; [done|].
  split; [done|]. destruct Hheld as (_ & Hh & _).
  intros ->. by destruct Hpl; subst.
Qed.

Lemma rank_owner_step n s t h E S b k m :
  reachable n s -> acquiring (pc (th s t)) ->
  held s h E S b -> place n s t h E S k m ->
  pc (th (step h s) t) = Crit \/
  exists k' m', rank n (step h s) t k' m' /\
    ((k' < k)%nat \/ (k' = k /\ m' = m /\ h <> m)).
Proof.
  intros Hr Hacq Hheld Hpl.
  destruct (held_owner_pc _ _ _ _ _ Hheld) as (Hsl & _).
  pose proof (held_length n s h E S b Hr Hheld) as Hlen.
  destruct Hpl as [Hth|E1 E2 HE|HS|Hth Hn].
  { left. subst t. by eapply owner_acquiring. }
  - (* [t] is in the entry segment *)
    right.
    destruct (owner_step_cfg _ _ _ _ _ Hheld)
      as [Hst|[(-> & _)|[(-> & _)|(e & E' & HE' & Hs)]]].
    + pose proof (owner_steps_left _ _ _ _ _ _ Hheld Hst) as Hlt.
      eexists _, h. split.
      * right. exists h, E, S, b. split; [done|]. by apply (place_entry _ _ _ _ _ _ E1 E2).
      * left. lia.
    + by destruct E1.
    + by destruct E1.
    + rewrite HE in HE'. destruct E1 as [|e1 E1]; simplify_eq/=.
      * exists 1%nat, e. split; [|left; lia].
        right. exists e, E', S, LOCKED_EMPTY. split; [done|].
        by apply place_owner.
      * eexists _, e. split.
        -- right. exists e, (E1 ++ t :: E2), S, LOCKED_EMPTY. split; [done|].
           by apply (place_entry _ _ _ _ _ _ E1 E2).
        -- left. pose proof (steps_left_le (pc (th (step h s) e))). lia.
  - (* [t] is among the arrivals *)
    right.
    destruct (owner_step_cfg _ _ _ _ _ Hheld)
      as [Hst|[(_ & -> & _)|[(-> & Hpc & Hd)|(e & E' & -> & Hs)]]].
    + pose proof (owner_steps_left _ _ _ _ _ _ Hheld Hst) as Hlt.
      eexists _, h. split.
      * right. exists h, E, S, b. split; [done|]. by apply place_arrival.
      * left. lia.
    + by apply elem_of_nil in HS.
    + destruct (list_elem_of_split _ _ HS) as (E1 & E2 & ->).
      eexists _, h. split.
      * right. exists h, (E1 ++ t :: E2), [], LOCKED_EMPTY. split; [done|].
        by apply (place_entry _ _ _ _ _ _ E1 E2).
      * left. pose proof (steps_left_le (pc (th (step h s) h))).
        rewrite length_app in Hlen. cbn in Hlen. cbn [length]. lia.
    + eexists _, e. split.
      * right. exists e, E', S, LOCKED_EMPTY. split; [done|].
        by apply place_arrival.
      * left. pose proof (steps_left_le (pc (th (step h s) e))).
        cbn [length]. lia.
  - (* [t] has not joined the queue *)
    right. exists (doorway n (pc (th s t))), t.
    split; [|right; split; [done|]; split; [done|]; by apply not_eq_sym].
    rewrite <- (step_other s h t) by done.
    destruct (owner_step_cfg _ _ _ _ _ Hheld)
      as [Hst|[(-> & -> & Hf)|[(-> & Hpc & Hd)|(e & E' & -> & Hs)]]].
    + right. exists h, E, S, b. split; [done|]. by apply place_doorway.
    + by left.
    + right. exists h, S, [], LOCKED_EMPTY. split; [done|].
      apply place_doorway; [done|]. by rewrite app_nil_r in Hn.
    + right. exists e, E', S, LOCKED_EMPTY. split; [done|].
      apply place_doorway; [|mem]. intros ->. apply Hn. mem.
Qed.

Lemma rank_other_step n s t u h E S b k m :
  reachable n s ->
  held s h E S b -> place n s t h E S k m -> u <> h -> (u ∉ S ++ E) ->
  exists k' m', rank n (step u s) t k' m' /\
    ((k' < k)%nat \/ (k' = k /\ m' = m /\ u <> m)).
Proof.
  intros Hr Hheld Hpl Huh Hni.
  pose proof (held_length n s h E S b Hr Hheld) as Hlen.
  pose proof (step_other s u h ltac:(by apply not_eq_sym)) as Hsame.
  destruct (other_step_cfg _ _ _ _ _ _ Hheld Huh Hni) as [[Hpc Hh]|[Hpc Hh]].
  - (* line 97: the queue is as before *)
    destruct Hpl as [Hth|E1 E2 HE|HS|Hth Hn].
    + exists 1%nat, t. split; [|right; by subst].
      right. exists h, E, S, b. split; [done|]. by apply place_owner.
    + eexists _, h. split; [|right; done].
      right. exists h, E, S, b. split; [done|]. rewrite <- Hsame.
      by apply (place_entry _ _ _ _ _ _ E1 E2).
    + eexists _, h. split; [|right; done].
      right. exists h, E, S, b. split; [done|]. rewrite <- Hsame.
      by apply place_arrival.
    + exists (doorway n (pc (th (step u s) t))), t. split.
      * right. exists h, E, S, b. split; [done|]. by apply place_doorway.
      * destruct (decide (u = t)) as [->|Hut].
        -- left. rewrite (idle_step_pc s t Hpc), Hpc. cbn. lia.
        -- right. by rewrite step_other.
  - (* line 99: [u] joins the arrivals *)
    destruct Hpl as [Hth|E1 E2 HE|HS|Hth Hn].
    + exists 1%nat, t. split; [|right; by subst].
      right. exists h, E, (u :: S), b. split; [done|]. by apply place_owner.
    + eexists _, h. split; [|right; done].
      right. exists h, E, (u :: S), b. split; [done|]. rewrite <- Hsame.
      by apply (place_entry _ _ _ _ _ _ E1 E2).
    + eexists _, h. split; [|right; done].
      right. exists h, E, (u :: S), b. split; [done|]. rewrite <- Hsame.
      apply place_arrival. by right.
    + destruct (decide (u = t)) as [->|Hut].
      * eexists _, h. split.
        -- right. exists h, E, (t :: S), b. split; [done|].
           apply place_arrival. by left.
        -- left. rewrite Hpc. cbn [doorway].
           pose proof (steps_left_le (pc (th (step t s) h))). lia.
      * exists (doorway n (pc (th (step u s) t))), t. split.
        -- right. exists h, E, (u :: S), b. split; [done|].
           apply place_doorway; [done|]. mem.
        -- right. by rewrite step_other.
Qed.

(** A step either brings [t] into its critical section, or brings it closer,
    or was not the step of the thread that has to move. *)
Lemma rank_step n s t u k m :
  reachable n s -> acquiring (pc (th s t)) -> rank n s t k m ->
  pc (th (step u s) t) = Crit \/
  exists k' m', rank n (step u s) t k' m' /\
    ((k' < k)%nat \/ (k' = k /\ m' = m /\ u <> m)).
Proof.
  intros Hr Hacq [(Hfree & -> & ->)|(h & E & S & b & Hheld & Hpl)].
  - apply rank_free_step; [done|]. destruct (pc (th s t)); cbn; lia.
  - destruct (decide (u ∈ S ++ E)) as [Hin|Hni].
    { right. by eapply rank_queued_step. }
    destruct (decide (u = h)) as [->|Huh].
    { by eapply rank_owner_step. }
    right. by eapply rank_other_step.
Qed.

Lemma acquiring_step s t u :
  acquiring (pc (th s t)) -> pc (th (step u s) t) <> Abort ->
  pc (th (step u s) t) = Crit \/ acquiring (pc (th (step u s) t)).
Proof using Type.
  clear. intros Hacq. destruct (decide (u = t)) as [->|Hne].
  - revert Hacq. unfold acquiring. unfold_steps.
    intros [Hpc|[Hpc|Hpc]]; rewrite Hpc; repeat case_decide; cbn; look;
      rewrite ?Hpc; intros ?; try done; auto.
  - rewrite step_other by done. auto.
Qed.

Lemma rank_pos n s t k m : rank n s t k m -> (1 <= k)%nat.
Proof using Type.
  clear. intros [(_ & -> & _)|(h & E & S & b & _ & Hpl)].
  - destruct (pc (th s t)); cbn; lia.
  - destruct Hpl; try lia. destruct (pc (th s t)); cbn; lia.
Qed.

Lemma rank_mover_lt n s t k m :
  reachable n s -> (t < n)%nat -> rank n s t k m -> (m < n)%nat.
Proof.
  intros Hr Ht [(_ & _ & ->)|(h & E & S & b & Hheld & Hpl)]; [done|].
  pose proof (held_owner_lt n s h E S b Hr Hheld). by destruct Hpl.
Qed.

Lemma rank_exists n s t :
  reachable n s ->
  exists k m, rank n s t k m /\ (k <= 14 * n + 10)%nat.
Proof.
  intros Hr.
  destruct (reachable_Inv n s Hr) as [Hfree|(h & E & S & b & Hheld)].
  { exists (doorway n (pc (th s t))), t. split; [by left|].
    destruct (pc (th s t)); cbn; lia. }
  pose proof (held_length n s h E S b Hr Hheld) as Hlen.
  pose proof (steps_left_le (pc (th s h))) as Hsl.
  destruct (decide (t = h)) as [->|Hth].
  { exists 1%nat, h. split; [|lia]. right. exists h, E, S, b.
    split; [done|]. by apply place_owner. }
  destruct (decide (t ∈ E)) as [HE|HE].
  { destruct (list_elem_of_split _ _ HE) as (E1 & E2 & ->).
    eexists _, h. split.
    - right. exists h, (E1 ++ t :: E2), S, b. split; [done|].
      by apply (place_entry _ _ _ _ _ _ E1 E2).
    - rewrite length_app in Hlen. cbn in Hlen. lia. }
  destruct (decide (t ∈ S)) as [HS|HS].
  { eexists _, h. split.
    - right. exists h, E, S, b. split; [done|]. by apply place_arrival.
    - lia. }
  exists (doorway n (pc (th s t))), t. split.
  - right. exists h, E, S, b. split; [done|]. apply place_doorway; [done|mem].
  - destruct (pc (th s t)); cbn; lia.
Qed.

(** Along a schedule the distance never grows, and it shrinks as soon as the
    thread that has to move has stepped. *)
Lemma run_progress n t l : forall s k m,
  reachable n s -> acquiring (pc (th s t)) -> rank n s t k m ->
  Forall (fun u => (u < n)%nat) l ->
  enters l s t \/
  (acquiring (pc (th (exec l s) t)) /\
   exists k' m', rank n (exec l s) t k' m' /\
     ((k' < k)%nat \/ (k' = k /\ m' = m /\ (m ∉ l)))).
Proof.
  induction l as [|u l IH]; intros s k m Hr Hacq Hrk Hall.
  { right. split; [done|]. exists k, m. split; [done|]. right.
    split; [done|]. split; [done|]. apply not_elem_of_nil. }
  inversion_clear Hall as [|? ? Hu Hall'].
  assert (reachable n (step u s)) as Hr' by by constructor.
  destruct (rank_step n s t u k m Hr Hacq Hrk)
    as [Hc|(k1 & m1 & Hrk1 & Hk1)].
  { left. by exists [u], l. }
  destruct (acquiring_step s t u Hacq
              (Inv_no_abort _ t (reachable_Inv n _ Hr'))) as [Hc|Hacq1].
  { left. by exists [u], l. }
  destruct (IH (step u s) k1 m1 Hr' Hacq1 Hrk1 Hall')
    as [He|(Hacq2 & k2 & m2 & Hrk2 & Hk2)].
  { left. by apply enters_cons. }
  right. split; [done|]. exists k2, m2. split; [done|].
  destruct Hk1 as [?|(-> & -> & Hum)]; [left; lia|].
  destruct Hk2 as [?|(-> & -> & Hml)]; [left; lia|].
  right. split; [done|]. split; [done|]. mem.
Qed.

Lemma rounds_progress n t rs : forall s k m,
  reachable n s -> (t < n)%nat -> acquiring (pc (th s t)) ->
  rank n s t k m -> Forall (fair_round n) rs -> (k <= length rs)%nat ->
  enters (concat rs) s t.
Proof.
  induction rs as [|r rs IH]; intros s k m Hr Ht Hacq Hrk Hall Hk.
  { pose proof (rank_pos _ _ _ _ _ Hrk). cbn in Hk. lia. }
  inversion_clear Hall as [|? ? [Hlt Hfair] Hall']. cbn [concat].
  destruct (run_progress n t r s k m Hr Hacq Hrk Hlt)
    as [(pre & suf & -> & Hc)|(Hacq' & k' & m' & Hrk' & Hk')].
  { exists pre, (suf ++ concat rs). by rewrite app_assoc. }
  apply enters_app.
  apply (IH _ k' m'); try done.
  - by apply reachable_exec.
  - destruct Hk' as [?|(-> & -> & Hm)]; [cbn in Hk; lia|].
    destruct Hm. apply Hfair. by eapply rank_mover_lt.
Qed.

(** X15. Acquire is starvation-free.  Take any state that [n] threads can
    reach and any thread [t] of them that is inside [reciplock_acquire] or
    about to call it, and let the threads go on in rounds in which every one
    of them takes at least one step (so whoever is in its critical section
    goes on to release).  Then within [14 * n + 10] rounds [t] is in its
    critical section. *)
Theorem acquire_returns (n : nat) (s : state) (t : nat) (rs : list (list nat)) :
  reachable n s ->
  (t < n)%nat ->
  acquiring (pc (th s t)) ->
  Forall (fair_round n) rs ->
  (14 * n + 10 <= length rs)%nat ->
  enters (concat rs) s t.
Proof.
  intros Hr Ht Hacq Hall Hlen.
  destruct (rank_exists n s t Hr) as (k & m & Hrk & Hk).
  apply (rounds_progress n t rs s k m); try done. lia.
Qed.

(** *** Bounded bypass *)

Lemma release_no_return s t :
  holding (pc (th s t)) = true -> existsb is_acq_return (events t s) = false.
Proof using Type.
  clear. unfold_steps.
  by destruct (pc (th s t)); try done; repeat case_decide.
Qed.

Lemma returns_owner s v h E S b :
  held (step v s) h E S b -> v <> h ->
  existsb is_acq_return (events v s) = false.
Proof.
  intros Hheld Hne. apply not_true_is_false. intros Hex.
  apply existsb_exists in Hex as (e & Hin & He).
  destruct e; try done. apply list_elem_of_In in Hin.
  pose proof (acq_return_crit _ _ _ Hin) as Hc.
  destruct (decide (v ∈ S ++ E)) as [Hq|Hq].
  - destruct (held_queued _ _ _ _ _ _ Hheld Hq) as [Hpc _]. congruence.
  - destruct Hheld as (_ & _ & Hquiet & _).
    destruct (Hquiet v Hne Hq) as [?|[? _]]; congruence.
Qed.

Lemma first_credit_le s u h E1 : (first_credit s u h E1 <= 1)%nat.
Proof using Type.
  clear. unfold first_credit. repeat case_decide; try lia.
  destruct (pc (th s h)); cbn; lia.
Qed.

Lemma first_credit_same s s' u h E1 :
  th s' h = th s h -> first_credit s' u h E1 = first_credit s u h E1.
Proof using Type. clear. unfold first_credit. by intros ->. Qed.

Lemma owner_not_woken s h E S b b' E' S' :
  held s h E S b -> held (step h s) h E' S' b' ->
  woken_bit (pc (th (step h s) h)) = O.
Proof.
  intros Hheld Hheld'.
  destruct (held_owner_pc _ _ _ _ _ Hheld') as (_ & Hni & Hnx).
  assert (pc (th (step h s) h) <> Abort) as Hna.
  { intros Ha. destruct Hheld' as (_ & _ & _ & _ & Hhold').
    unfold holds in Hhold'. by rewrite Ha in Hhold'. }
  destruct (decide (pc (th s h) = AcqSpin)) as [Hpc|Hpc].
  - by rewrite (woken_step_crit _ _ _ _ _ Hheld Hpc).
  - pose proof (held_owner_pc _ _ _ _ _ Hheld) as (_ & ? & ?).
    destruct (release_progress s h) as [?|[Hh _]]; try done.
    + pose proof Hheld as (_ & _ & _ & _ & Hhold). unfold holds in Hhold.
      by destruct (pc (th s h)).
    + by destruct (pc (th (step h s) h)).
Qed.

(** The owner's own return from acquire uses up its credit. *)
Lemma owner_return_credit s h E S b b' E' S' :
  held s h E S b -> held (step h s) h E' S' b' ->
  ((if existsb is_acq_return (events h s) then 1 else 0)
   <= woken_bit (pc (th s h)))%nat.
Proof.
  intros Hheld Hheld'.
  destruct (decide (pc (th s h) = AcqSpin)) as [Hpc|Hpc].
  - rewrite Hpc. cbn. case_match; lia.
  - rewrite release_no_return; [lia|].
    pose proof Hheld as (_ & _ & _ & _ & Hhold). unfold holds in Hhold.
    by destruct (pc (th s h)).
Qed.

Lemma credit_queued_step s t u v h E S b c :
  held s h E S b -> credit s t u h E S c -> v ∈ S ++ E ->
  exists c', overtakes (step v s) t u c' /\
    (c' + (if decide (v = u)
           then if existsb is_acq_return (events v s) then 1 else 0
           else 0) <= c)%nat.
Proof.
  intros Hheld Hc Hin. exists c. split.
  - rewrite (queued_step _ _ _ _ _ _ Hheld Hin). by exists h, E, S, b.
  - unfold events.
    rewrite (spin_again s v (held_queued _ _ _ _ _ _ Hheld Hin)). cbn.
    case_decide; lia.
Qed.

Lemma credit_other_step s t u v h E S b c :
  held s h E S b -> credit s t u h E S c -> v <> h -> (v ∉ S ++ E) ->
  exists c', overtakes (step v s) t u c' /\
    (c' + (if decide (v = u)
           then if existsb is_acq_return (events v s) then 1 else 0
           else 0) <= c)%nat.
Proof.
  intros Hheld Hc Hvh Hni.
  pose proof (step_other s v h ltac:(by apply not_eq_sym)) as Hsame.
  exists c. split.
  - destruct (other_step_cfg _ _ _ _ _ _ Hheld Hvh Hni) as [[_ Hh]|[_ Hh]].
    + exists h, E, S, b. split; [done|]. destruct Hc as [?|E1 E2 HE|S1 S2 HS].
      * by apply credit_owner.
      * rewrite <- (first_credit_same s (step v s)) by done.
        by apply (credit_entry _ _ _ _ _ _ E1 E2).
      * rewrite <- (first_credit_same s (step v s)) by done.
        by apply (credit_arrival _ _ _ _ _ _ S1 S2).
    + exists h, E, (v :: S), b. split; [done|].
      destruct Hc as [?|E1 E2 HE|S1 S2 HS].
      * by apply credit_owner.
      * rewrite <- (first_credit_same s (step v s)) by done.
        by apply (credit_entry _ _ _ _ _ _ E1 E2).
      * rewrite <- (first_credit_same s (step v s)) by done.
        apply (credit_arrival _ _ _ _ _ _ (v :: S1) S2). by rewrite HS.
  - assert (existsb is_acq_return (events v s) = false) as ->.
    { destruct (other_step_cfg _ _ _ _ _ _ Hheld Hvh Hni) as [[_ Hh]|[_ Hh]];
        by eapply returns_owner. }
    case_decide; lia.
Qed.

Lemma credit_owner_step s t u h E S b c :
  acquiring (pc (th s t)) -> u <> t ->
  held s h E S b -> credit s t u h E S c ->
  pc (th (step h s) t) = Crit \/
  exists c', overtakes (step h s) t u c' /\
    (c' + (if decide (h = u)
           then if existsb is_acq_return (events h s) then 1 else 0
           else 0) <= c)%nat.
Proof.
  intros Hacq Hut Hheld Hc.
  pose proof Hheld as (Hnd & Hh & _).
  destruct Hc as [Hth|E1 E2 HE|S1 S2 HS].
  { left. subst t. by eapply owner_acquiring. }
  - (* [t] is in the entry segment *)
    right.
    destruct (owner_step_cfg _ _ _ _ _ Hheld)
      as [Hst|[(-> & _)|[(-> & _)|(e & E' & HE' & Hs)]]].
    + exists (first_credit (step h s) u h E1). split.
      * exists h, E, S, b. split; [done|].
        by apply (credit_entry _ _ _ _ _ _ E1 E2).
      * pose proof (owner_not_woken _ _ _ _ _ _ _ _ Hheld Hst) as Hnw.
        pose proof (owner_return_credit _ _ _ _ _ _ _ _ Hheld Hst) as Hrc.
        unfold first_credit. rewrite Hnw.
        destruct (decide (h = u)) as [<-|Huh].
        -- rewrite !(decide_False (P := h ∈ E1)) by (subst E; mem).
           repeat case_decide; lia.
        -- repeat case_decide; try lia; congruence.
    + by destruct E1.
    + by destruct E1.
    + assert (existsb is_acq_return (events h s) = false) as ->.
      { eapply returns_owner; [done|]. intros ->. apply Hh. rewrite HE'. mem. }
      rewrite HE in HE'. destruct E1 as [|e1 E1]; simplify_eq/=.
      * exists O. split; [|case_decide; lia].
        exists e, E', S, LOCKED_EMPTY. split; [done|]. by apply credit_owner.
      * exists (first_credit (step h s) u e E1). split.
        -- exists e, (E1 ++ t :: E2), S, LOCKED_EMPTY. split; [done|].
           by apply (credit_entry _ _ _ _ _ _ E1 E2).
        -- pose proof (first_credit_le (step h s) u e E1).
           unfold first_credit at 2.
           destruct (decide (u ∈ e :: E1)) as [Hin|Hin]; [case_decide; lia|].
           unfold first_credit. rewrite !decide_False by mem.
           case_decide; lia.
  - (* [t] is among the arrivals *)
    right.
    destruct (owner_step_cfg _ _ _ _ _ Hheld)
      as [Hst|[(_ & HS' & _)|[(-> & Hpc & Hd)|(e & E' & -> & Hs)]]].
    + exists (first_credit (step h s) u h E +
              (if decide (u ∈ S2) then 0 else 1))%nat. split.
      * exists h, E, S, b. split; [done|].
        by apply (credit_arrival _ _ _ _ _ _ S1 S2).
      * pose proof (owner_not_woken _ _ _ _ _ _ _ _ Hheld Hst) as Hnw.
        pose proof (owner_return_credit _ _ _ _ _ _ _ _ Hheld Hst) as Hrc.
        unfold first_credit. rewrite Hnw.
        destruct (decide (h = u)) as [<-|Huh].
        -- rewrite !(decide_False (P := h ∈ E)) by mem.
           repeat case_decide; lia.
        -- repeat case_decide; try lia; congruence.
    + rewrite HS in HS'. by destruct S1.
    + assert (existsb is_acq_return (events h s) = false) as ->.
      { apply release_no_return. by rewrite Hpc. }
      exists (first_credit (step h s) u h S1). split.
      * exists h, S, [], LOCKED_EMPTY. split; [done|].
        by apply (credit_entry _ _ _ _ _ _ S1 S2).
      * pose proof (owner_not_woken _ _ _ _ _ _ _ _ Hheld Hd) as Hnw.
        unfold first_credit. rewrite Hnw, Hpc. cbn [woken_bit].
        destruct (decide (u ∈ S1)) as [Hin|Hin].
        -- rewrite (decide_False (P := u ∈ S2)).
           ++ repeat case_decide; lia.
           ++ rewrite app_nil_r, HS in Hnd.
              apply list.NoDup_app in Hnd as (_ & Hdisj & _).
              intros Hin2. apply (Hdisj u Hin). by right.
        -- repeat case_decide; lia.
    + assert (existsb is_acq_return (events h s) = false) as ->.
      { eapply returns_owner; [done|]. intros ->. apply Hh. mem. }
      exists (first_credit (step h s) u e E' +
              (if decide (u ∈ S2) then 0 else 1))%nat. split.
      * exists e, E', S, LOCKED_EMPTY. split; [done|].
        by apply (credit_arrival _ _ _ _ _ _ S1 S2).
      * pose proof (first_credit_le (step h s) u e E').
        unfold first_credit at 2.
        destruct (decide (u ∈ e :: E')) as [Hin|Hin];
          [repeat case_decide; lia|].
        unfold first_credit. rewrite !decide_False by mem.
        repeat case_decide; lia.
Qed.

Lemma credit_step n s t u v c :
  reachable n s -> acquiring (pc (th s t)) -> u <> t ->
  overtakes s t u c ->
  pc (th (step v s) t) = Crit \/
  exists c', overtakes (step v s) t u c' /\
    (c' + (if decide (v = u)
           then if existsb is_acq_return (events v s) then 1 else 0
           else 0) <= c)%nat.
Proof.
  intros Hr Hacq Hut (h & E & S & b & Hheld & Hc).
  destruct (decide (v ∈ S ++ E)) as [Hin|Hni].
  { right. by eapply credit_queued_step. }
  destruct (decide (v = h)) as [->|Hvh].
  { by eapply credit_owner_step. }
  right. by eapply credit_other_step.
Qed.

Lemma bypass_run n t u sched : forall s c,
  reachable n s -> acquiring (pc (th s t)) -> u <> t ->
  overtakes s t u c ->
  Forall (fun v => (v < n)%nat) sched ->
  ~ enters sched s t ->
  (entries u sched s <= c)%nat.
Proof.
  induction sched as [|v sched IH]; intros s c Hr Hacq Hut Hc Hall Hne;
    [cbn; lia|].
  inversion_clear Hall as [|? ? Hv Hall'].
  assert (reachable n (step v s)) as Hr' by by constructor.
  assert (pc (th (step v s) t) <> Crit) as Hnc.
  { intros Hcrit. apply Hne. by exists [v], sched. }
  destruct (credit_step n s t u v c Hr Hacq Hut Hc)
    as [?|(c' & Hc' & Hle)]; [done|].
  destruct (acquiring_step s t v Hacq
              (Inv_no_abort _ t (reachable_Inv n _ Hr'))) as [?|Hacq'];
    [done|].
  specialize (IH (step v s) c' Hr' Hacq' Hut Hc' Hall').
  cbn [entries]. etrans; [|exact Hle]. rewrite Nat.add_comm.
  apply Nat.add_le_mono_r, IH.
  intros He. apply Hne. by apply enters_cons.
Qed.

(** X17. Bounded bypass: once a thread [t] waits in the queue (it has
    exchanged the tail and spins on its node), any other thread returns from
    acquire at most twice before [t] does, however the steps interleave. *)
Theorem bounded_bypass (n : nat) (s : state) (t u : nat) (sched : list nat) :
  reachable n s ->
  waiting s t ->
  u <> t ->
  Forall (fun v => (v < n)%nat) sched ->
  ~ enters sched s t ->
  (entries u sched s <= 2)%nat.
Proof.
  intros Hr Hw Hut Hall Hne.
  destruct (reachable_Inv n s Hr) as [[_ Hq]|(h & E & S & b & Hheld)].
  { destruct Hw as [Hpc _]. destruct (Hq t) as [?|[? _]]; congruence. }
  assert (t ∈ S ++ E) as Hin.
  { destruct (decide (t ∈ S ++ E)) as [|Hni]; [done|]. exfalso.
    destruct (decide (t = h)) as [->|Hth].
    - by destruct (owns_not_queued s h (held_owner_owns _ _ _ _ _ Hheld)).
    - destruct Hheld as (_ & _ & Hq & _). destruct Hw as [Hpc _].
      destruct (Hq t Hth Hni) as [?|[? _]]; congruence. }
  assert (exists c, overtakes s t u c /\ (c <= 2)%nat) as (c & Hc & Hle).
  { apply elem_of_app in Hin as [Hin|Hin];
      destruct (list_elem_of_split _ _ Hin) as (L1 & L2 & HL).
    - eexists. split.
      + exists h, E, S, b. split; [done|].
        by apply (credit_arrival _ _ _ _ _ _ L1 L2).
      + pose proof (first_credit_le s u h E). case_decide; lia.
    - eexists. split.
      + exists h, E, S, b. split; [done|].
        by apply (credit_entry _ _ _ _ _ _ L1 L2).
      + pose proof (first_credit_le s u h L1). lia. }
  etrans; [|exact Hle].
  apply (bypass_run n t u sched s c); try done.
  right. right. by destruct Hw.
Qed.

(** ** The benchmark worker *)

Section BenchSafety.

Context {X : Type}.
Variable prng_step : X -> X.
Variable seed : X.

Lemma sumn_ext n g g' :
  (forall t, (t < n)%nat -> g t = g' t) -> sumn n g = sumn n g'.
Proof using Type.
  clear. induction n as [|n IH]; intros H; [done|]. cbn.
  rewrite IH, H by (intros; (apply H || idtac); lia). done.
Qed.

Lemma sumn_upd n g g' t :
  (t < n)%nat -> (forall u, u <> t -> g' u = g u) ->
  (sumn n g' + g t = sumn n g + g' t)%nat.
Proof using Type.
  clear. induction n as [|n IH]; intros Ht H; [lia|]. cbn.
  destruct (decide (t = n)) as [->|Hne].
  - rewrite (sumn_ext n g' g) by (intros; apply H; lia). lia.
  - rewrite (H n) by done. specialize (IH ltac:(lia) H). lia.
Qed.

Lemma u64_succ z : u64 (u64 z + 1) = u64 (z + 1).
Proof using Type. clear. unfold u64. by rewrite Zplus_mod_idemp_l. Qed.

Lemma u64_add a c : u64 (u64 a + u64 c) = u64 (a + c).
Proof using Type. clear. unfold u64. by rewrite <- Zplus_mod. Qed.

Lemma lock_is_step t m :
  pc (th m t) = Idle \/ pc (th m t) = AcqXchg \/ pc (th m t) = AcqSpin ->
  tilt_mutex_lock t m = tstep t m.
Proof using Type.
  clear. unfold tilt_mutex_lock, tstep. by intros [->|[->| ->]].
Qed.

Lemma unlock_is_step t m :
  holding (pc (th m t)) = true -> tilt_mutex_unlock t m = tstep t m.
Proof using Type.
  clear. unfold tilt_mutex_unlock, tstep. by destruct (pc (th m t)).
Qed.

Lemma acquire_step_pc t m :
  pc (th m t) = Idle \/ pc (th m t) = AcqXchg \/ pc (th m t) = AcqSpin ->
  pc (th (step t m) t) <> Abort ->
  if existsb is_acq_return (events t m)
  then pc (th (step t m) t) = Crit
  else pc (th (step t m) t) = AcqXchg \/ pc (th (step t m) t) = AcqSpin.
Proof using Type.
  clear. unfold_steps.
  intros [Hpc|[Hpc|Hpc]]; rewrite Hpc; repeat case_decide; cbn; look;
    try done; auto.
Qed.

Lemma release_step_pc t m :
  holding (pc (th m t)) = true ->
  pc (th (step t m) t) <> Abort ->
  if existsb is_rel_return (events t m)
  then pc (th (step t m) t) = Idle
  else holding (pc (th (step t m) t)) = true.
Proof using Type.
  clear. unfold_steps.
  destruct (pc (th m t)); try done; repeat case_decide; cbn; look; done.
Qed.

Lemma bench_inv_init n : bench_inv prng_step seed n (bench_init seed).
Proof using Type.
  clear. split; [constructor|]. split; [done|]. split; [done|].
  exists (fun _ => O). split; [done|]. cbn.
  assert (sumn n (fun _ => O) = O) as -> by (induction n; cbn; lia).
  done.
Qed.

Lemma bench_inv_stop n b :
  bench_inv prng_step seed n b -> bench_inv prng_step seed n (main_stop b).
Proof using Type. clear. done. Qed.

Lemma bench_inv_step n b t :
  (t < n)%nat ->
  bench_inv prng_step seed n b -> bench_inv prng_step seed n (wstep prng_step t b).
Proof.
  intros Ht (Hr & Hpc & Hld & cnt & Hloc & Htot & Hprng).
  pose proof (Hpc t) as Hpt. unfold wstep.
  destruct (wpc b t) eqn:Hw; cbn in Hpt.
  - (* line 26 *)
    split; [done|]. split; [|split]; cbn.
    + intros u. destruct (decide (u = t)) as [->|Hne].
      * rewrite fn_lookup_insert, Hpt. by destruct (done b); cbn; auto.
      * rewrite fn_lookup_insert_ne by done. apply Hpc.
    + intros u. destruct (decide (u = t)) as [->|Hne].
      * rewrite fn_lookup_insert. by destruct (done b).
      * rewrite fn_lookup_insert_ne by done. apply Hld.
    + exists cnt. split; [done|]. split.
      * rewrite Htot. f_equal. f_equal. apply sumn_ext. intros u _.
        destruct (decide (u = t)) as [->|Hne].
        -- rewrite fn_lookup_insert, Hw. by destruct (done b).
        -- by rewrite fn_lookup_insert_ne.
      * rewrite Hprng. f_equal. apply sumn_ext. intros u _.
        destruct (decide (u = t)) as [->|Hne].
        -- rewrite fn_lookup_insert, Hw. by destruct (done b).
        -- by rewrite fn_lookup_insert_ne.
  - (* line 27 *)
    rewrite lock_is_step by done.
    assert (reachable n (step t (mutex b))) as Hr' by by constructor.
    pose proof (acquire_step_pc t (mutex b) Hpt
                  (Inv_no_abort _ t (reachable_Inv n _ Hr'))) as Hstep.
    fold (events t (mutex b)). fold (step t (mutex b)).
    split; [done|]. split; [|split]; cbn.
    + intros u. destruct (decide (u = t)) as [->|Hne].
      * rewrite fn_lookup_insert.
        destruct (existsb is_acq_return (events t (mutex b))); cbn; tauto.
      * rewrite fn_lookup_insert_ne, step_other by done. apply Hpc.
    + intros u. destruct (decide (u = t)) as [->|Hne].
      * rewrite fn_lookup_insert.
        by destruct (existsb is_acq_return (events t (mutex b))).
      * rewrite fn_lookup_insert_ne by done. apply Hld.
    + exists cnt. split; [done|]. split.
      * rewrite Htot. f_equal. f_equal. apply sumn_ext. intros u _.
        destruct (decide (u = t)) as [->|Hne].
        -- rewrite fn_lookup_insert, Hw.
           by destruct (existsb is_acq_return (events t (mutex b))).
        -- by rewrite fn_lookup_insert_ne.
      * rewrite Hprng. f_equal. apply sumn_ext. intros u _.
        destruct (decide (u = t)) as [->|Hne].
        -- rewrite fn_lookup_insert, Hw.
           by destruct (existsb is_acq_return (events t (mutex b))).
        -- by rewrite fn_lookup_insert_ne.
  - (* line 29, the read *)
    split; [done|]. split; [|split]; cbn.
    + intros u. destruct (decide (u = t)) as [->|Hne].
      * by rewrite fn_lookup_insert.
      * rewrite fn_lookup_insert_ne by done. apply Hpc.
    + intros u. destruct (decide (u = t)) as [->|Hne].
      * by rewrite !fn_lookup_insert.
      * rewrite !fn_lookup_insert_ne by done. apply Hld.
    + exists cnt. split; [done|]. split.
      * rewrite Htot. f_equal. f_equal. apply sumn_ext. intros u _.
        destruct (decide (u = t)) as [->|Hne].
        -- by rewrite fn_lookup_insert, Hw.
        -- by rewrite fn_lookup_insert_ne.
      * rewrite Hprng. f_equal. apply sumn_ext. intros u _.
        destruct (decide (u = t)) as [->|Hne].
        -- by rewrite fn_lookup_insert, Hw.
        -- by rewrite fn_lookup_insert_ne.
  - (* line 29, the write *)
    split; [done|]. split; [|split]; cbn.
    + intros u. destruct (decide (u = t)) as [->|Hne].
      * rewrite fn_lookup_insert. cbn. by rewrite Hpt.
      * rewrite fn_lookup_insert_ne by done. apply Hpc.
    + intros u. destruct (decide (u = t)) as [->|Hne].
      * by rewrite fn_lookup_insert.
      * rewrite fn_lookup_insert_ne by done. intros Hu. exfalso.
        pose proof (Hpc u) as Hpu. rewrite Hu in Hpu. cbn in Hpu.
        apply Hne. apply (Inv_active_unique (mutex b));
          [by eapply reachable_Inv|rewrite Hpu|rewrite Hpt];
          by repeat split.
    + exists cnt. split; [done|]. split.
      * rewrite Htot. f_equal. f_equal. apply sumn_ext. intros u _.
        destruct (decide (u = t)) as [->|Hne].
        -- by rewrite fn_lookup_insert, Hw.
        -- by rewrite fn_lookup_insert_ne.
      * rewrite (Hld t Hw), Hprng.
        pose proof (sumn_upd n
          (fun u => cnt u + pending (wpc b u))%nat
          (fun u => cnt u + pending (<[t := WUnlock]> (wpc b) u))%nat
          t Ht) as Hs. cbn beta in Hs.
        rewrite fn_lookup_insert, Hw in Hs. cbn in Hs.
        assert (sumn n
          (fun u => cnt u + pending (<[t := WUnlock]> (wpc b) u))%nat =
          S (sumn n (fun u => cnt u + pending (wpc b u))%nat)) as ->.
        { enough ((sumn n
            (fun u => cnt u + pending (<[t := WUnlock]> (wpc b) u)) +
            (cnt t + 0) =
            sumn n (fun u => cnt u + pending (wpc b u)) + (cnt t + 1))%nat)
            by lia.
          apply Hs. intros u Hu. by rewrite fn_lookup_insert_ne. }
        done.
  - (* line 31 *)
    rewrite unlock_is_step by done.
    assert (reachable n (step t (mutex b))) as Hr' by by constructor.
    pose proof (release_step_pc t (mutex b) Hpt
                  (Inv_no_abort _ t (reachable_Inv n _ Hr'))) as Hstep.
    fold (events t (mutex b)). fold (step t (mutex b)).
    destruct (existsb is_rel_return (events t (mutex b))).
    + split; [done|]. split; [|split]; cbn.
      * intros u. destruct (decide (u = t)) as [->|Hne].
        -- by rewrite fn_lookup_insert.
        -- rewrite fn_lookup_insert_ne, step_other by done. apply Hpc.
      * intros u. destruct (decide (u = t)) as [->|Hne].
        -- by rewrite fn_lookup_insert.
        -- rewrite fn_lookup_insert_ne by done. apply Hld.
      * exists (<[t := S (cnt t)]> cnt). split; [|split].
        -- intros u. destruct (decide (u = t)) as [->|Hne].
           ++ rewrite !fn_lookup_insert, Hloc, u64_succ. f_equal. lia.
           ++ rewrite !fn_lookup_insert_ne by done. apply Hloc.
        -- rewrite Htot. f_equal. f_equal. apply sumn_ext. intros u _.
           destruct (decide (u = t)) as [->|Hne].
           ++ by rewrite !fn_lookup_insert, Hw.
           ++ by rewrite !fn_lookup_insert_ne.
        -- rewrite Hprng. f_equal. apply sumn_ext. intros u _.
           destruct (decide (u = t)) as [->|Hne].
           ++ rewrite !fn_lookup_insert, Hw. cbn. lia.
           ++ by rewrite !fn_lookup_insert_ne.
    + split; [done|]. split; [|split]; cbn.
      * intros u. destruct (decide (u = t)) as [->|Hne].
        -- by rewrite Hw.
        -- rewrite step_other by done. apply Hpc.
      * done.
      * exists cnt. done.
  - (* line 37 *)
    split; [done|]. split; [|split]; cbn.
    + intros u. destruct (decide (u = t)) as [->|Hne].
      * by rewrite fn_lookup_insert.
      * rewrite fn_lookup_insert_ne by done. apply Hpc.
    + intros u. destruct (decide (u = t)) as [->|Hne].
      * by rewrite fn_lookup_insert.
      * rewrite fn_lookup_insert_ne by done. apply Hld.
    + exists cnt. split; [done|]. split.
      * rewrite Htot, Hloc, u64_add. f_equal. rewrite <- Nat2Z.inj_add.
        f_equal.
        pose proof (sumn_upd n
          (fun u => exited (wpc b u) (cnt u))
          (fun u => exited (<[t := WExit]> (wpc b) u) (cnt u))
          t Ht) as Hs. cbn beta in Hs.
        rewrite fn_lookup_insert, Hw in Hs. cbn in Hs.
        rewrite <- Hs; [lia|]. intros u Hu. by rewrite fn_lookup_insert_ne.
      * rewrite Hprng. f_equal. apply sumn_ext. intros u _.
        destruct (decide (u = t)) as [->|Hne].
        -- by rewrite fn_lookup_insert, Hw.
        -- by rewrite fn_lookup_insert_ne.
  - split; [done|]. split; [done|]. split; [done|]. by exists cnt.
Qed.

Lemma bench_reachable_inv n b :
  bench_reachable prng_step seed n b -> bench_inv prng_step seed n b.
Proof.
  induction 1;
    [apply bench_inv_init|by apply bench_inv_step|by apply bench_inv_stop].
Qed.

(** X10. In the benchmark, with [pthread_mutex_lock] and
    [pthread_mutex_unlock] being the reciprocating back end's
    [tilt_mutex_lock] and [tilt_mutex_unlock] on an initialised lock, no two
    of the [n] workers are ever inside the call [prng()] of line 29 together,
    whatever the interleaving of their atomic steps and whenever [main]
    raises [done]. *)
Theorem prng_calls_never_overlap (n : nat) (b : bench) (t u : nat) :
  bench_reachable prng_step seed n b ->
  in_prng b t -> in_prng b u -> t = u.
Proof.
  intros (Hr & Hpc & _)%bench_reachable_inv Ht Hu.
  pose proof (Hpc t) as Hpt. pose proof (Hpc u) as Hpu.
  apply (Inv_active_unique (mutex b)); [by eapply reachable_Inv| |].
  - destruct Ht as [Ht|Ht]; rewrite Ht in Hpt; cbn in Hpt; rewrite Hpt;
      by repeat split.
  - destruct Hu as [Hu|Hu]; rewrite Hu in Hpu; cbn in Hpu; rewrite Hpu;
      by repeat split.
Qed.

(** X11. No update of the shared generator is lost: when a worker comes to
    write the generator back in [prng()], the state it read is still the
    generator's current state, so its write advances the generator by exactly
    one step and leaves every counter alone. *)
Theorem prng_update_not_lost (n : nat) (b : bench) (t : nat) :
  bench_reachable prng_step seed n b ->
  wpc b t = WPrngWrite ->
  prng_loaded b t = prng b /\
  prng (wstep prng_step t b) = prng_step (prng b) /\
  iterations_total (wstep prng_step t b) = iterations_total b /\
  iterations_local (wstep prng_step t b) = iterations_local b.
Proof.
  intros (_ & _ & Hld & _)%bench_reachable_inv Hw.
  split; [by apply Hld|]. unfold wstep. rewrite Hw. cbn.
  by rewrite (Hld t Hw).
Qed.

(** X12. The benchmark's figures add up: once all [n] workers have returned,
    there are per-worker round counts [cnt t] such that each worker's
    [iterations_local] (its return value) is [cnt t] as a [uint64_t],
    [iterations_total] is the sum of the counts as a [uint64_t], and the
    shared generator has been advanced from its seed exactly that sum of
    times. *)
Theorem worker_totals (n : nat) (b : bench) :
  bench_reachable prng_step seed n b ->
  (forall t, (t < n)%nat -> wpc b t = WExit) ->
  exists cnt : nat -> nat,
    (forall t, iterations_local b t = u64 (Z.of_nat (cnt t))) /\
    iterations_total b = u64 (Z.of_nat (sumn n cnt)) /\
    prng b = Nat.iter (sumn n cnt) prng_step seed.
Proof.
  intros (_ & _ & _ & cnt & Hloc & Htot & Hprng)%bench_reachable_inv Hex.
  exists cnt. split; [done|]. split.
  - rewrite Htot. f_equal. f_equal. apply sumn_ext. intros t Ht.
    by rewrite (Hex t Ht).
  - rewrite Hprng. f_equal. apply sumn_ext. intros t Ht.
    rewrite (Hex t Ht). cbn. lia.
Qed.

(** X13. Once all [n] workers have returned, the lock is back in the state
    [reciplock_init] gave it: the tail is null and no thread is inside
    acquire or release, so line 76 destroys a lock that nobody holds or
    waits for. *)
Theorem lock_free_when_workers_returned (n : nat) (b : bench) :
  bench_reachable prng_step seed n b ->
  (forall t, (t < n)%nat -> wpc b t = WExit) ->
  tail (mutex b) = NULL /\ forall t, pc (th (mutex b) t) = Idle.
Proof.
  intros (Hr & Hpc & _)%bench_reachable_inv Hex.
  assert (forall t, pc (th (mutex b) t) = Idle) as Hidle.
  { intros t. destruct (decide (t < n)%nat) as [Ht|Ht].
    - pose proof (Hpc t) as Hpt. by rewrite (Hex t Ht) in Hpt.
    - by rewrite (never_stepped n (mutex b) t) by (done || lia). }
  split; [|done].
  destruct (reachable_Inv n _ Hr) as [[Ht _]|(h & E & S & c & Hheld)];
    [done|].
  destruct Hheld as (_ & _ & _ & _ & Hh). unfold holds in Hh.
  by rewrite (Hidle h) in Hh.
Qed.

(** *** The workers return *)

Lemma sumn_zero n g : sumn n g = O -> forall t, (t < n)%nat -> g t = O.
Proof using Type.
  clear. induction n as [|n IH]; intros H t Ht; [lia|]. cbn in H.
  destruct (decide (t = n)) as [->|Hne]; [lia|]. apply IH; lia.
Qed.

Lemma sumn_pos n g :
  sumn n g <> O -> exists t, (t < n)%nat /\ g t <> O.
Proof using Type.
  clear. induction n as [|n IH]; intros H; [done|]. cbn in H.
  destruct (decide (g n = O)) as [Hg|Hg].
  - destruct IH as (t & Ht & Hgt); [lia|]. exists t. split; [lia|done].
  - exists n. split; [lia|done].
Qed.

Lemma sumn_decrease n g g' t :
  (t < n)%nat -> (forall u, u <> t -> g' u = g u) -> (g' t < g t)%nat ->
  (sumn n g' < sumn n g)%nat.
Proof using Type.
  clear. intros Ht Hsame Hlt. pose proof (sumn_upd n g g' t Ht Hsame). lia.
Qed.

Lemma done_wstep t b : done (wstep prng_step t b) = done b.
Proof using Type.
  clear. unfold wstep. destruct (wpc b t); try done. by case_match.
Qed.

Lemma wstep_others t b u :
  u <> t ->
  wpc (wstep prng_step t b) u = wpc b u /\
  th (mutex (wstep prng_step t b)) u = th (mutex b) u.
Proof using Type.
  clear. intros Hne. unfold wstep, tilt_mutex_lock, tilt_mutex_unlock.
  destruct (wpc b t) eqn:Hw; cbn; rewrite ?fn_lookup_insert_ne by done;
    try done.
  - split; [done|]. unfold_tstep.
    destruct (pc (th (mutex b) t)); try done;
      unfold acquire_reset, acquire_exchange, acquire_spin, abort;
      repeat case_decide; cbn; by look.
  - case_match; cbn; rewrite ?fn_lookup_insert_ne by done;
      (split; [done|]); unfold_tstep;
      destruct (pc (th (mutex b) t)); try done;
      unfold release_enter, release_check_succ, release_store_succ,
        release_fast_load, release_cas, release_detach, release_check_w,
        release_store_w, abort;
      repeat case_decide; cbn; by look.
Qed.

(** A parked worker's step changes nothing that matters. *)
Lemma parked_wstep t b :
  parked b t ->
  mutex (wstep prng_step t b) = mutex b /\
  forall u, wpc (wstep prng_step t b) u = wpc b u.
Proof using Type.
  clear. intros [Hw|[Hw Hwait]]; unfold wstep; rewrite Hw; [done|].
  unfold tilt_mutex_lock. destruct Hwait as [Hpc Hn].
  unfold reciplock_acquire, acquire_spin. rewrite Hpc, Hn.
  rewrite decide_True by done. cbn. split; [done|]. intros u.
  destruct (decide (u = t)) as [->|Hne].
  - by rewrite fn_lookup_insert.
  - by rewrite fn_lookup_insert_ne.
Qed.

Lemma lock_work_decreases s t :
  acquiring (pc (th s t)) -> ~ waiting s t ->
  pc (th (step t s) t) <> Abort ->
  (work_left (if existsb is_acq_return (events t s) then WPrngRead else WLock)
             (pc (th (step t s) t))
   < work_left WLock (pc (th s t)))%nat.
Proof using Type.
  clear. unfold waiting, acquiring. unfold_steps.
  intros [Hpc|[Hpc|Hpc]] Hnw; rewrite Hpc; repeat case_decide; cbn; look;
    intros ?; try done; cbn; try lia.
  destruct Hnw. by rewrite Hpc.
Qed.

Lemma unlock_work_decreases s t :
  holding (pc (th s t)) = true ->
  pc (th (step t s) t) <> Abort ->
  if existsb is_rel_return (events t s)
  then pc (th (step t s) t) = Idle
  else (steps_left (pc (th (step t s) t)) < steps_left (pc (th s t)))%nat.
Proof using Type.
  clear. unfold_steps.
  destruct (pc (th s t)); try done; repeat case_decide; cbn; look;
    intros ? ?; try done; cbn; lia.
Qed.

(** The step of a worker that is not parked uses up some of the work. *)
Lemma working_wstep n b t :
  bench_inv prng_step seed n b -> done b = true -> (t < n)%nat ->
  ~ parked b t ->
  (total_work_left n (wstep prng_step t b) < total_work_left n b)%nat.
Proof.
  intros Hinv Hd Ht Hnp.
  pose proof (bench_inv_step n b t Ht Hinv) as (Hr' & _).
  pose proof Hinv as (Hr & Hpc & _).
  pose proof (Inv_no_abort _ t (reachable_Inv n _ Hr')) as Hna.
  unfold total_work_left. apply (sumn_decrease _ _ _ t); [done| |].
  { intros u Hu. by destruct (wstep_others t b u Hu) as [-> ->]. }
  pose proof (Hpc t) as Hpt. revert Hna. unfold wstep.
  destruct (wpc b t) eqn:Hw; cbn in Hpt; cbn.
  - rewrite Hd, fn_lookup_insert. cbn. lia.
  - rewrite lock_is_step by done. fold (events t (mutex b)).
    fold (step t (mutex b)). rewrite fn_lookup_insert. intros Hna.
    apply lock_work_decreases; [done| |done].
    intros Hwait. apply Hnp. by right.
  - rewrite fn_lookup_insert. cbn. lia.
  - rewrite fn_lookup_insert, Hpt. cbn. lia.
  - rewrite unlock_is_step by done. fold (events t (mutex b)).
    fold (step t (mutex b)). intros Hna.
    pose proof (unlock_work_decreases (mutex b) t Hpt) as Hdec.
    assert (1 <= steps_left (pc (th (mutex b) t)))%nat
      by (destruct (pc (th (mutex b) t)); try done; cbn; lia).
    destruct (existsb is_rel_return (events t (mutex b))); cbn in *.
    + rewrite fn_lookup_insert. cbn. lia.
    + rewrite Hw. cbn. specialize (Hdec Hna). lia.
  - rewrite fn_lookup_insert. cbn. lia.
  - destruct Hnp. by left.
Qed.

Lemma parked_work n b t :
  parked b t ->
  total_work_left n (wstep prng_step t b) = total_work_left n b.
Proof using Type.
  clear. intros [Hm Hw]%parked_wstep. unfold total_work_left.
  apply sumn_ext. intros u _. by rewrite Hm, Hw.
Qed.

(** While a worker has not returned, some worker is not parked: the lock
    does not deadlock. *)
Lemma someone_works n b t :
  bench_inv prng_step seed n b -> (t < n)%nat -> wpc b t <> WExit ->
  exists m, (m < n)%nat /\ ~ parked b m.
Proof.
  intros (Hr & Hpc & _) Ht Hw.
  destruct (decide (parked b t)) as [[?|[_ Hwait]]|Hnp]; [done| |by exists t].
  destruct (reachable_Inv n _ Hr) as [[_ Hq]|(h & E & S & c & Hheld)].
  { destruct Hwait as [Hp _]. destruct (Hq t) as [Hi|[Hx _]]; congruence. }
  exists h. split; [by eapply held_owner_lt|].
  pose proof (held_owner_owns _ _ _ _ _ Hheld) as Ho.
  destruct (owns_not_queued _ _ Ho) as [Hnq Hnw].
  intros [Hex|[_ Hwait']]; [|done].
  pose proof (Hpc h) as Hph. rewrite Hex in Hph. cbn in Hph.
  apply Hnq. by left.
Qed.

Lemma bench_run_app l1 l2 (b : bench) :
  bench_run prng_step (l1 ++ l2) b =
  bench_run prng_step l2 (bench_run prng_step l1 b).
Proof using Type.
  clear. revert b. induction l1 as [|a l1 IH]; intros b; [done|]. apply IH.
Qed.

Lemma bench_inv_run n l : forall b,
  bench_inv prng_step seed n b -> Forall (fun u => (u < n)%nat) l ->
  bench_inv prng_step seed n (bench_run prng_step (map Work l) b).
Proof.
  induction l as [|u l IH]; intros b Hinv Hall; [done|].
  inversion_clear Hall as [|? ? Hu Hall']. cbn. apply IH; [|done].
  by apply bench_inv_step.
Qed.

Lemma done_run l : forall b : bench,
  done (bench_run prng_step (map Work l) b) = done b.
Proof using Type.
  clear. induction l as [|u l IH]; intros b; [done|]. cbn.
  by rewrite IH, done_wstep.
Qed.

(** Along a schedule the work left never grows, and it shrinks if a worker
    that was not parked has stepped. *)
Lemma run_work n l : forall b,
  bench_inv prng_step seed n b -> done b = true ->
  Forall (fun u => (u < n)%nat) l ->
  (total_work_left n (bench_run prng_step (map Work l) b)
   <= total_work_left n b)%nat /\
  (forall m, m ∈ l -> ~ parked b m ->
     (total_work_left n (bench_run prng_step (map Work l) b)
      < total_work_left n b)%nat).
Proof.
  induction l as [|u l IH]; intros b Hinv Hd Hall.
  { split; [done|]. intros m Hm. by apply elem_of_nil in Hm. }
  inversion_clear Hall as [|? ? Hu Hall']. cbn.
  destruct (IH (wstep prng_step u b)) as [Hle Hlt];
    [by apply bench_inv_step|by rewrite done_wstep|done|].
  destruct (decide (parked b u)) as [Hp|Hnp].
  - rewrite (parked_work n b u Hp) in Hle, Hlt. split; [done|].
    intros m Hm Hnm. apply (Hlt m).
    + apply elem_of_cons in Hm as [->|Hm]; done.
    + destruct (parked_wstep u b Hp) as [Hmx Hwx].
      unfold parked. by rewrite Hmx, Hwx.
  - pose proof (working_wstep n b u Hinv Hd Hu Hnp). split; [lia|].
    intros m _ _. lia.
Qed.

Lemma rounds_work n rs : forall b,
  bench_inv prng_step seed n b -> done b = true ->
  Forall (fair_round n) rs ->
  (total_work_left n b <= length rs)%nat ->
  total_work_left n (bench_run prng_step (map Work (concat rs)) b) = O.
Proof.
  induction rs as [|r rs IH]; intros b Hinv Hd Hall Hk.
  { cbn in *. lia. }
  inversion_clear Hall as [|? ? [Hlt Hfair] Hall']. cbn [concat].
  rewrite map_app, bench_run_app.
  destruct (run_work n r b Hinv Hd Hlt) as [Hle Hdec].
  apply IH; [by apply bench_inv_run|by rewrite done_run|done|].
  cbn in Hk.
  destruct (decide (total_work_left n b = O)) as [Hz|Hnz]; [lia|].
  destruct (sumn_pos _ _ Hnz) as (t & Ht & Hwt).
  destruct (someone_works n b t Hinv Ht) as (m & Hm & Hnp).
  { intros Hex. by rewrite Hex in Hwt. }
  specialize (Hdec m (Hfair m Hm) Hnp). lia.
Qed.

Lemma sumn_le n g c : (forall t, (g t <= c)%nat) -> (sumn n g <= c * n)%nat.
Proof using Type.
  clear. intros Hg. induction n as [|n IH]; cbn; [lia|].
  specialize (Hg n). lia.
Qed.

(** X16. The benchmark comes to an end: once [main] has raised [done], and
    as long as the workers go on in rounds in which each of them takes at
    least one step, all [n] workers have returned within [13 * n] rounds, so
    the [pthread_join] of line 62 does not wait for ever.  No worker is left
    spinning in [pthread_mutex_lock]. *)
Theorem workers_return (n : nat) (b : bench) (rs : list (list nat)) :
  bench_reachable prng_step seed n b ->
  done b = true ->
  Forall (fair_round n) rs ->
  (13 * n <= length rs)%nat ->
  forall t, (t < n)%nat ->
    wpc (bench_run prng_step (map Work (concat rs)) b) t = WExit.
Proof.
  intros Hb%bench_reachable_inv Hd Hall Hlen t Ht.
  assert (total_work_left n b <= length rs)%nat as Hk.
  { etrans; [|exact Hlen]. apply sumn_le. intros u.
    pose proof (steps_left_le (pc (th (mutex b) u))).
    destruct (wpc b u); cbn; try lia.
    destruct (pc (th (mutex b) u)); lia. }
  pose proof (rounds_work n rs b Hb Hd Hall Hk) as Hz.
  pose proof (sumn_zero _ _ Hz t Ht) as Hw. cbn beta in Hw.
  destruct (wpc (bench_run prng_step (map Work (concat rs)) b) t);
    try done; cbn in Hw; try lia.
  destruct (pc _); lia.
Qed.

End BenchSafety.

End Safety.

(** ** The tilt back end: try-lock *)

(** On a lock that is taken, the sibling back end answers no. *)
Lemma caslock_trylock_taken (lock : Z) :
  lock <> 0 -> (Caslock.tilt_mutex_trylock lock).1 = false.
Proof. intros H. cbn. by destruct lock. Qed.

(** ** The concrete layout *)

Lemma addr0_inj t u : addr0 t = addr0 u -> t = u.
Proof. unfold addr0. lia. Qed.

Lemma addr0_aligned t : Z.even (addr0 t) = true.
Proof. unfold addr0. by rewrite Z.even_add, Z.even_mul. Qed.

Lemma addr0_nonnull t : addr0 t <> NULL.
Proof. unfold addr0, NULL. lia. Qed.

Lemma reachable0 n sched :
  forallb (fun t => Nat.ltb t n) sched = true ->
  reachable (lay := addr0) n (exec (lay := addr0) sched init_state).
Proof.
  intros H. apply reachable_exec; [constructor|].
  induction sched as [|t sched IH]; [constructor|].
  cbn in H. apply andb_prop in H as [Ht H].
  constructor; [by apply Nat.ltb_lt|by apply IH].
Qed.

Lemma bench_reachable_run {X : Type} (f : X -> X) seed n acts : forall b,
  bench_reachable (lay := addr0) f seed n b ->
  forallb (action_ok n) acts = true ->
  bench_reachable (lay := addr0) f seed n (bench_run (lay := addr0) f acts b).
Proof.
  induction acts as [|a acts IH]; intros b Hb H; [done|].
  cbn in H. apply andb_prop in H as [Ha H]. cbn. apply IH; [|done].
  destruct a as [t|]; cbn.
  - constructor; [done|]. by apply Nat.ltb_lt.
  - by constructor.
Qed.

(** The scenario of two threads: T0 acquires, T1 arrives, T0 releases through
    the slow path, T1 wakes. *)
Example scenario_two_threads :
  let s := exec (lay := addr0) [0; 0; 1; 1; 0; 0; 0; 0; 0; 1]%nat init_state in
  pc (th s 0%nat) = Idle /\ pc (th s 1%nat) = Crit /\
  tls_successor (th s 1%nat) = NULL /\
  tls_end_of_segment (th s 1%nat) = LOCKED_EMPTY /\
  tail s = LOCKED_EMPTY.
Proof. vm_compute. repeat split. Qed.

(** C8, where the code goes wrong.  T0 is in its critical section (two
    threads, T0 has run [tilt_mutex_lock]) and T1 calls [tilt_mutex_trylock]
    with the return register holding 1.  The call tells T1 that it has the
    lock; T0 is still in its critical section, the lock is untouched, and T1
    does not own it.  The answer is neither "unsupported" nor a fact about
    the lock: with the register holding 0 the same call on the same lock
    answers the opposite.  The sibling back end, asked on a taken lock,
    answers no. *)
Theorem trylock_reports_success_on_a_held_lock :
  let s := held_by_T0 in
  let r := tilt_mutex_trylock true 1 s in
  reachable (lay := addr0) 2 s /\
  pc (th s 0%nat) = Crit /\ pc (th s 1%nat) = Idle /\
  r.1 = true /\
  r.2 = s /\ pc (th r.2 0%nat) = Crit /\ ~ owns (lay := addr0) r.2 1 /\
  (tilt_mutex_trylock false 1 s).1 = false /\
  (Caslock.tilt_mutex_trylock 1).1 = false.
Proof.
  cbn zeta. split; [by apply reachable0|].
  split; [by vm_compute|]. split; [by vm_compute|]. split; [done|].
  split; [done|]. split; [by vm_compute|]. split; [|done].
  intros [Hh|[Hpc _]]; [|by vm_compute in Hpc]. by vm_compute in Hh.
Qed.

(** ** The theorems on concrete runs *)

Lemma mutual_exclusion_witness :
  reachable (lay := addr0) 2 one_waiter /\
  pc (th one_waiter 0%nat) = Crit /\
  (forall t u,
     pc (th one_waiter t) = Crit -> pc (th one_waiter u) = Crit -> t = u) /\
  (forall t u r,
     pc (th one_waiter t) = Crit -> u <> t ->
     EvAcqReturn r ∉ events (lay := addr0) u one_waiter).
Proof.
  split; [by apply reachable0|]. split; [by vm_compute|].
  apply (mutual_exclusion (lay := addr0)
           addr0_inj addr0_aligned addr0_nonnull 2).
  by apply reachable0.
Defined.

(** T1 spins on its node after T0 has written its own address there. *)
Lemma acquire_disambiguates_witness :
  let s := exec (lay := addr0) [0; 0; 1; 1; 0; 0; 0; 0; 0]%nat init_state in
  succ (th s 1%nat) = 4096 /\ next s (addr0 1) = 4096 /\
  pc (th (step (lay := addr0) 1 s) 1%nat) = Crit /\
  tls_successor (th (step (lay := addr0) 1 s) 1%nat) = NULL /\
  tls_end_of_segment (th (step (lay := addr0) 1 s) 1%nat) = LOCKED_EMPTY.
Proof.
  cbn zeta.
  destruct (acquire_disambiguates (lay := addr0)
              addr0_inj addr0_aligned addr0_nonnull
              2 (exec (lay := addr0) [0; 0; 1; 1; 0; 0; 0; 0; 0]%nat init_state)
              1%nat 4096)
    as (_ & _ & Hpc & _ & Heq & _).
  - by apply reachable0.
  - by vm_compute.
  - by vm_compute.
  - done.
  - split; [by vm_compute|]. split; [by vm_compute|]. split; [exact Hpc|].
    apply Heq. by vm_compute.
Defined.

Lemma acquire_fast_path_witness :
  let s := exec (lay := addr0) [0]%nat init_state in
  pc (th s 0%nat) = AcqXchg /\ tail s = NULL /\
  events (lay := addr0) 0 s = [EvXchgTail 4096 NULL; EvAcqReturn NULL] /\
  filter is_spin_load (events (lay := addr0) 0 s) = [] /\
  pc (th (step (lay := addr0) 0 s) 0%nat) = Crit /\
  tls_successor (th (step (lay := addr0) 0 s) 0%nat) = NULL /\
  tls_end_of_segment (th (step (lay := addr0) 0 s) 0%nat) = 4096 /\
  tail (step (lay := addr0) 0 s) = 4096.
Proof.
  cbn zeta. split; [by vm_compute|]. split; [by vm_compute|].
  apply (acquire_fast_path (lay := addr0) addr0_nonnull); by vm_compute.
Defined.

Lemma release_to_successor_witness :
  let s := woken_with_successor in
  pc (th s 0%nat) = Crit /\
  tls_successor (th s 0%nat) = 4112 /\
  tls_end_of_segment (th s 0%nat) = 4104 /\
  filter is_store (trace (lay := addr0) [0; 0; 0]%nat s).*2 =
    [EvStoreNext 4112 4104] /\
  filter writes_tail (trace (lay := addr0) [0; 0; 0]%nat s).*2 = [] /\
  pc (th (exec (lay := addr0) [0; 0; 0]%nat s) 0%nat) = Idle /\
  tail (exec (lay := addr0) [0; 0; 0]%nat s) = tail s.
Proof.
  cbn zeta.
  destruct (release_to_successor (lay := addr0)
              addr0_inj addr0_aligned addr0_nonnull
              3 woken_with_successor 0%nat) as (_ & _ & _ & Hrun).
  - by apply reachable0.
  - by vm_compute.
  - destruct Hrun as (Hst & Hwr & _ & Hpc & Htl & _); [by vm_compute|].
    split; [by vm_compute|]. split; [by vm_compute|]. split; [by vm_compute|].
    split; [exact Hst|]. split; [exact Hwr|]. split; [exact Hpc|exact Htl].
Defined.

(** T0 has seen T1's node in tail and stands before the exchange of line
    176. *)
Lemma release_slow_path_witness :
  let s := exec (lay := addr0) [0; 0; 1; 1; 0; 0]%nat init_state in
  pc (th s 0%nat) = RelXchg /\ tail s = 4104 /\
  next s (tail s) = NULL /\
  pc (th (exec (lay := addr0) [0; 0; 0]%nat s) 0%nat) = Idle /\
  next (exec (lay := addr0) [0; 0; 0]%nat s) (tail s) =
    tls_end_of_segment (th s 0%nat).
Proof.
  cbn zeta.
  destruct (release_slow_path (lay := addr0)
              addr0_inj addr0_aligned addr0_nonnull
              2 (exec (lay := addr0) [0; 0; 1; 1; 0; 0]%nat init_state) 0%nat)
    as (Hx & _ & _ & Hrun).
  - by apply reachable0.
  - destruct Hx as (_ & _ & _ & _ & Hn & _); [by vm_compute|].
    destruct Hrun as (_ & Hpc & Hw); [by vm_compute|].
    split; [by vm_compute|]. split; [by vm_compute|].
    split; [exact Hn|]. split; [exact Hpc|exact Hw].
Defined.

(** T0 alone: the load of line 166 finds its own node in tail. *)
Lemma release_fast_path_witness :
  let s := exec (lay := addr0) [0; 0; 0]%nat init_state in
  pc (th s 0%nat) = RelFastLoad /\
  tail s = tls_end_of_segment (th s 0%nat) /\
  tls_successor (th s 0%nat) = NULL /\
  events (lay := addr0) 0 s = [EvLoadTail (tail s)] /\
  pc (th (step (lay := addr0) 0 s) 0%nat) = RelCas.
Proof.
  cbn zeta.
  destruct (release_fast_path (lay := addr0)
              addr0_inj addr0_aligned addr0_nonnull
              1 (exec (lay := addr0) [0; 0; 0]%nat init_state) 0%nat)
    as (_ & Hload & _).
  - by apply reachable0.
  - destruct Hload as (Hs & Hev & Heq & _); [by vm_compute|].
    split; [by vm_compute|]. split; [by vm_compute|].
    split; [exact Hs|]. split; [exact Hev|]. apply Heq. by vm_compute.
Defined.

Lemma context_well_formed_witness :
  let T := th woken_with_successor 0%nat in
  tls_successor T = 4112 /\
  tls_end_of_segment T <> NULL /\
  (tls_successor T <> NULL ->
     tls_successor T <> addr0 0 /\
     tls_end_of_segment T <> NULL /\ tls_end_of_segment T <> addr0 0).
Proof.
  cbn zeta.
  destruct (context_well_formed (lay := addr0)
              addr0_inj addr0_aligned addr0_nonnull
              3 woken_with_successor 0%nat) as (Hnn & _ & Hs).
  - by apply reachable0.
  - by vm_compute.
  - split; [by vm_compute|]. split; [exact Hnn|exact Hs].
Defined.

(** Two states that differ in T1's record only: in [s1] T0 stands before the
    store of line 151 and T1 is outside the lock; in [s2] T1 has, in addition,
    run line 97.  T0's release does the same in both. *)
Lemma context_in_thread_local_storage_witness :
  let s1 := exec (lay := addr0) [0; 0]%nat woken_with_successor in
  let s2 := step (lay := addr0) 1 s1 in
  (pc (th s1 1%nat) = Idle /\ pc (th s2 1%nat) = AcqXchg) /\
  (pc (th s1 0%nat) = RelStoreSucc /\
   th s1 0%nat = th s2 0%nat /\ tail s1 = tail s2 /\
   forall a, next s1 a = next s2 a) /\
  (events (lay := addr0) 0 s1 = events (lay := addr0) 0 s2 /\
   th (step (lay := addr0) 0 s1) 0%nat = th (step (lay := addr0) 0 s2) 0%nat /\
   tail (step (lay := addr0) 0 s1) = tail (step (lay := addr0) 0 s2) /\
   forall a,
     next (step (lay := addr0) 0 s1) a = next (step (lay := addr0) 0 s2) a) /\
  ((pc (th s1 0%nat) = Crit ->
    pc (th (step (lay := addr0) 0 s1) 0%nat) = RelChkSucc ->
      tls_successor (th s1 0%nat) <> NULL) /\
   (pc (th s1 0%nat) = Crit ->
    pc (th (step (lay := addr0) 0 s1) 0%nat) = RelFastLoad ->
      tls_successor (th s1 0%nat) = NULL) /\
   (pc (th s1 0%nat) = RelStoreSucc ->
      events (lay := addr0) 0 s1 =
        [EvStoreNext (tls_successor (th s1 0%nat))
                     (tls_end_of_segment (th s1 0%nat)); EvRelReturn] /\
      next (step (lay := addr0) 0 s1) (tls_successor (th s1 0%nat)) =
        tls_end_of_segment (th s1 0%nat)) /\
   (pc (th s1 0%nat) = RelStoreW ->
      events (lay := addr0) 0 s1 =
        [EvStoreNext (w (th s1 0%nat)) (tls_end_of_segment (th s1 0%nat));
         EvRelReturn] /\
      next (step (lay := addr0) 0 s1) (w (th s1 0%nat)) =
        tls_end_of_segment (th s1 0%nat))) /\
  (forall s r, EvAcqReturn r ∈ events (lay := addr0) 0 s ->
     pc (th (step (lay := addr0) 0 s) 0%nat) = Crit /\
     r = tls_successor (th (step (lay := addr0) 0 s) 0%nat)).
Proof.
  cbn zeta.
  set (s1 := exec (lay := addr0) [0; 0]%nat woken_with_successor).
  assert (pc (th s1 1%nat) = Idle) as Hidle by by vm_compute.
  assert (next s1 (addr0 1) = NULL) as Hnull by by vm_compute.
  destruct (idle_step_frame (lay := addr0) s1 1%nat Hidle Hnull)
    as (Htl & Hnx & Hth).
  assert (th s1 0%nat = th (step (lay := addr0) 1 s1) 0%nat) as Hth0
    by (symmetry; by apply Hth).
  split; [split; [done|by vm_compute]|].
  split; [split; [by vm_compute|]; split; [done|]; split; [done|];
          intros a; symmetry; apply Hnx|].
  apply (context_in_thread_local_storage (lay := addr0)
           s1 (step (lay := addr0) 1 s1) 0%nat);
    [by vm_compute|done|done|intros a; symmetry; apply Hnx].
Defined.

Lemma single_thread_fast_path_witness :
  let s := Nat.iter 3 (exec (lay := addr0) (cycle 0)) init_state in
  tail s = NULL /\ pc (th s 0%nat) = Idle /\
  trace (lay := addr0) (cycle 0) s =
    pair 0%nat <$> [EvStoreNext 4096 NULL;
                    EvXchgTail 4096 NULL; EvAcqReturn NULL;
                    EvRelCall; EvLoadTail 4096;
                    EvLoadTail 4096;
                    EvCasTail 4096 NULL true; EvRelReturn] /\
  pc (th (exec (lay := addr0) [0; 0]%nat s) 0%nat) = Crit /\
  tail (exec (lay := addr0) (cycle 0) s) = NULL.
Proof.
  apply (single_thread_fast_path (lay := addr0) addr0_nonnull 0 3).
Defined.

(** ** The further properties on concrete runs *)

(** T0 has been woken with T2 as its successor and has entered release. *)
Lemma asserts_never_fail_witness :
  pc (th woken_with_successor 0%nat) <> Abort /\
  EvAssertFail ∉ events (lay := addr0) 0 woken_with_successor.
Proof.
  apply (asserts_never_fail (lay := addr0)
           addr0_inj addr0_aligned addr0_nonnull 3).
  by apply reachable0.
Defined.

Lemma release_dereferences_waiting_node_witness :
  let s := exec (lay := addr0) [0]%nat woken_with_successor in
  pc (th s 0%nat) = RelChkSucc /\
  exists e, (e < 3)%nat /\ e <> 0%nat /\
    tls_successor (th s 0%nat) = addr0 e /\
    pc (th s e) = AcqSpin /\ next s (addr0 e) = NULL.
Proof.
  cbn zeta. split; [by vm_compute|].
  apply (release_dereferences_waiting_node (lay := addr0)
           addr0_inj addr0_aligned addr0_nonnull 3
           (exec (lay := addr0) [0]%nat woken_with_successor) 0%nat).
  - apply reachable_exec; [by apply reachable0|repeat constructor; lia].
  - left. by vm_compute.
Defined.

Lemma only_nodes_are_written_witness :
  reachable (lay := addr0) 2 one_waiter /\
  (forall t a v, (t < 2)%nat ->
     EvStoreNext a v ∈ events (lay := addr0) t one_waiter ->
     exists e, (e < 2)%nat /\ a = addr0 e) /\
  (forall a, (forall e, (e < 2)%nat -> a <> addr0 e) ->
     next one_waiter a = next init_state a).
Proof.
  split; [by apply reachable0|].
  apply (only_nodes_are_written (lay := addr0)
           addr0_inj addr0_aligned addr0_nonnull 2).
  by apply reachable0.
Defined.

Lemma single_owner_witness :
  owns (lay := addr0) one_waiter 0 /\
  forall u, owns (lay := addr0) one_waiter u -> 0%nat = u.
Proof.
  assert (owns (lay := addr0) one_waiter 0) as Ho by (left; by vm_compute).
  split; [done|]. intros u Hu.
  apply (single_owner (lay := addr0) addr0_inj addr0_aligned addr0_nonnull
           2 one_waiter 0%nat u); [by apply reachable0|done|done].
Defined.

(** T0 stands before the store of line 151 that wakes T2. *)
Lemma release_frees_or_hands_over_witness :
  let s := exec (lay := addr0) [0; 0]%nat woken_with_successor in
  let s' := step (lay := addr0) 0 s in
  EvRelReturn ∈ events (lay := addr0) 0 s /\
  pc (th s' 0%nat) = Idle /\
  (forall u, u <> 0%nat -> th s' u = th s u) /\
  ((tail s' = NULL /\ (forall u, outside s' u) /\
    forall a, next s' a = next s a) \/
   (exists e, (e < 3)%nat /\ e <> 0%nat /\
      pc (th s e) = AcqSpin /\ next s (addr0 e) = NULL /\
      pc (th s' e) = AcqSpin /\
      next s' (addr0 e) = tls_end_of_segment (th s 0%nat) /\
      next s' (addr0 e) <> NULL /\
      (forall a, a <> addr0 e -> next s' a = next s a) /\
      (forall u, next s' (addr0 u) <> next s (addr0 u) -> u = e))).
Proof.
  cbn zeta.
  assert (EvRelReturn ∈ events (lay := addr0) 0
            (exec (lay := addr0) [0; 0]%nat woken_with_successor)) as Hin.
  { apply list_elem_of_In. vm_compute. auto. }
  split; [done|].
  apply (release_frees_or_hands_over (lay := addr0)
           addr0_inj addr0_aligned addr0_nonnull 3
           (exec (lay := addr0) [0; 0]%nat woken_with_successor) 0%nat);
    [|done].
  apply reachable_exec; [by apply reachable0|repeat constructor; lia].
Defined.

Lemma tail_meaning_witness :
  (tail one_waiter = NULL <-> forall t, outside one_waiter t) /\
  (tail one_waiter = NULL \/ tail one_waiter = LOCKED_EMPTY \/
   exists x, (x < 2)%nat /\ tail one_waiter = addr0 x).
Proof.
  apply (tail_meaning (lay := addr0) addr0_inj addr0_aligned addr0_nonnull 2).
  by apply reachable0.
Defined.

Lemma waiter_has_moving_owner_witness :
  pc (th one_waiter 1%nat) = AcqSpin /\
  exists h, (h < 2)%nat /\ h <> 1%nat /\ owns (lay := addr0) one_waiter h /\
    pc (th (step (lay := addr0) h one_waiter) h) <> pc (th one_waiter h).
Proof.
  split; [by vm_compute|].
  apply (waiter_has_moving_owner (lay := addr0)
           addr0_inj addr0_aligned addr0_nonnull 2 one_waiter 1%nat);
    [by apply reachable0|by vm_compute|by vm_compute].
Defined.

Lemma handoff_written_once_witness :
  let s := exec (lay := addr0) [0; 0]%nat woken_with_successor in
  let s' := step (lay := addr0) 0 s in
  pc (th s 2%nat) = AcqSpin /\
  (next s (addr0 2) <> NULL -> next s' (addr0 2) = next s (addr0 2)) /\
  (next s' (addr0 2) <> next s (addr0 2) ->
     owns (lay := addr0) s 0 /\ EvRelReturn ∈ events (lay := addr0) 0 s /\
     next s (addr0 2) = NULL /\
     next s' (addr0 2) = tls_end_of_segment (th s 0%nat)).
Proof.
  cbn zeta. split; [by vm_compute|].
  apply (handoff_written_once (lay := addr0)
           addr0_inj addr0_aligned addr0_nonnull 3
           (exec (lay := addr0) [0; 0]%nat woken_with_successor) 2%nat 0%nat);
    [|by vm_compute|done].
  apply reachable_exec; [by apply reachable0|repeat constructor; lia].
Defined.

(** ** Runs that contradict the specification's wording *)

(** *** Progress on concrete runs *)

Lemma fair_round_01 : fair_round 2 [0; 1]%nat.
Proof.
  split; [repeat constructor|]. intros u Hu.
  destruct u as [|[|u]]; [set_unfold; auto..|lia].
Qed.

(** T0 is in its critical section with T1 queued behind it. *)
Lemma release_wait_free_witness :
  reachable (lay := addr0) 2 one_waiter /\
  holding (pc (th one_waiter 0%nat)) = true /\
  leaves (lay := addr0) [0; 1; 0; 0; 1; 0; 0; 0]%nat one_waiter 0.
Proof.
  assert (reachable (lay := addr0) 2 one_waiter) as Hr by by apply reachable0.
  split; [done|]. split; [by vm_compute|].
  apply (release_wait_free (lay := addr0)
           addr0_inj addr0_aligned addr0_nonnull 2 one_waiter 0%nat);
    [done|by vm_compute|repeat constructor|vm_compute; lia].
Defined.

(** T1 spins behind T0. *)
Lemma acquire_returns_witness :
  reachable (lay := addr0) 2 one_waiter /\
  acquiring (pc (th one_waiter 1%nat)) /\
  enters (lay := addr0) (concat (replicate 38 [0; 1]%nat)) one_waiter 1.
Proof.
  assert (reachable (lay := addr0) 2 one_waiter) as Hr by by apply reachable0.
  assert (acquiring (pc (th one_waiter 1%nat))) as Ha
    by (right; right; by vm_compute).
  split; [done|]. split; [done|].
  apply (acquire_returns (lay := addr0)
           addr0_inj addr0_aligned addr0_nonnull 2 one_waiter 1%nat);
    [done|lia|done| |rewrite length_replicate; lia].
  apply Forall_replicate, fair_round_01.
Defined.

Lemma not_enters_nil s t :
  pc (th s t) <> Crit -> ~ enters (lay := addr0) [] s t.
Proof.
  intros Hpc (pre & suf & Heq & Hc). symmetry in Heq.
  apply app_eq_nil in Heq as [-> _]. done.
Qed.

Lemma not_enters_cons v sched s t :
  pc (th s t) <> Crit ->
  ~ enters (lay := addr0) sched (step (lay := addr0) v s) t ->
  ~ enters (lay := addr0) (v :: sched) s t.
Proof.
  intros Hpc Hne (pre & suf & Heq & Hc). destruct pre as [|v' pre]; [done|].
  simplify_eq/=. apply Hne. by exists pre, suf.
Qed.

(** T1 waits; T2 overtakes it twice, and that is all the bound allows. *)
Lemma bounded_bypass_witness :
  reachable (lay := addr0) 4 late_arrival /\
  waiting (lay := addr0) late_arrival 1 /\
  ~ enters (lay := addr0) overtaking late_arrival 1 /\
  (entries (lay := addr0) 2 overtaking late_arrival <= 2)%nat.
Proof.
  assert (reachable (lay := addr0) 4 late_arrival) as Hr by by apply reachable0.
  assert (waiting (lay := addr0) late_arrival 1) as Hw by by vm_compute.
  assert (~ enters (lay := addr0) overtaking late_arrival 1) as Hne.
  { unfold overtaking.
    repeat (apply not_enters_cons; [by vm_compute|]).
    apply not_enters_nil. by vm_compute. }
  split; [done|]. split; [done|]. split; [done|].
  apply (bounded_bypass (lay := addr0)
           addr0_inj addr0_aligned addr0_nonnull 4 late_arrival 1%nat 2%nat);
    [done|done|lia|repeat constructor|done].
Defined.

Example overtaken_twice :
  entries (lay := addr0) 2 overtaking late_arrival = 2%nat.
Proof. by vm_compute. Qed.

(** *** The benchmark on concrete runs *)

Lemma bench_mid_prng_reachable :
  bench_reachable (lay := addr0) S 42%nat 2 bench_mid_prng.
Proof. apply bench_reachable_run; [constructor|by vm_compute]. Qed.

Lemma bench_finished_reachable :
  bench_reachable (lay := addr0) S 42%nat 2 bench_finished.
Proof. apply bench_reachable_run; [constructor|by vm_compute]. Qed.

Lemma bench_finished_exited t : (t < 2)%nat -> wpc bench_finished t = WExit.
Proof. intros Ht. destruct t as [|[|t]]; [by vm_compute..|lia]. Qed.

Lemma prng_calls_never_overlap_witness :
  bench_reachable (lay := addr0) S 42%nat 2 bench_mid_prng /\
  in_prng bench_mid_prng 0 /\
  forall u, in_prng bench_mid_prng u -> 0%nat = u.
Proof.
  assert (in_prng bench_mid_prng 0) as H0 by (right; by vm_compute).
  split; [apply bench_mid_prng_reachable|]. split; [done|]. intros u Hu.
  apply (prng_calls_never_overlap (lay := addr0)
           addr0_inj addr0_aligned addr0_nonnull S 42%nat 2 bench_mid_prng);
    [apply bench_mid_prng_reachable|done|done].
Defined.

Lemma prng_update_not_lost_witness :
  bench_reachable (lay := addr0) S 42%nat 2 bench_mid_prng /\
  wpc bench_mid_prng 0 = WPrngWrite /\
  prng_loaded bench_mid_prng 0 = prng bench_mid_prng /\
  prng (wstep (lay := addr0) S 0 bench_mid_prng) = S (prng bench_mid_prng) /\
  iterations_total (wstep (lay := addr0) S 0 bench_mid_prng) =
    iterations_total bench_mid_prng /\
  iterations_local (wstep (lay := addr0) S 0 bench_mid_prng) =
    iterations_local bench_mid_prng.
Proof.
  split; [apply bench_mid_prng_reachable|]. split; [by vm_compute|].
  apply (prng_update_not_lost (lay := addr0)
           addr0_inj addr0_aligned addr0_nonnull S 42%nat 2 bench_mid_prng);
    [apply bench_mid_prng_reachable|by vm_compute].
Defined.

Lemma worker_totals_witness :
  bench_reachable (lay := addr0) S 42%nat 2 bench_finished /\
  (forall t, (t < 2)%nat -> wpc bench_finished t = WExit) /\
  exists cnt : nat -> nat,
    (forall t, iterations_local bench_finished t = u64 (Z.of_nat (cnt t))) /\
    iterations_total bench_finished = u64 (Z.of_nat (sumn 2 cnt)) /\
    prng bench_finished = Nat.iter (sumn 2 cnt) S 42%nat.
Proof.
  split; [apply bench_finished_reachable|].
  split; [apply bench_finished_exited|].
  apply (worker_totals (lay := addr0)
           addr0_inj addr0_aligned addr0_nonnull S 42%nat 2 bench_finished).
  - apply bench_finished_reachable.
  - apply bench_finished_exited.
Defined.

Lemma workers_return_witness :
  bench_reachable (lay := addr0) S 42%nat 2 bench_stopping /\
  done bench_stopping = true /\
  wpc bench_stopping 1 = WLock /\
  forall t, (t < 2)%nat ->
    wpc (bench_run (lay := addr0) S
           (map Work (concat (replicate 26 [0; 1]%nat))) bench_stopping) t
    = WExit.
Proof.
  assert (bench_reachable (lay := addr0) S 42%nat 2 bench_stopping) as Hb
    by (apply bench_reachable_run; [constructor|by vm_compute]).
  split; [done|]. split; [by vm_compute|]. split; [by vm_compute|].
  apply (workers_return (lay := addr0)
           addr0_inj addr0_aligned addr0_nonnull S 42%nat 2 bench_stopping);
    [done|by vm_compute| |rewrite length_replicate; lia].
  apply Forall_replicate, fair_round_01.
Defined.

Lemma lock_free_when_workers_returned_witness :
  bench_reachable (lay := addr0) S 42%nat 2 bench_finished /\
  (forall t, (t < 2)%nat -> wpc bench_finished t = WExit) /\
  tail (mutex bench_finished) = NULL /\
  forall t, pc (th (mutex bench_finished) t) = Idle.
Proof.
  split; [apply bench_finished_reachable|].
  split; [apply bench_finished_exited|].
  apply (lock_free_when_workers_returned (lay := addr0)
           addr0_inj addr0_aligned addr0_nonnull S 42%nat 2 bench_finished).
  - apply bench_finished_reachable.
  - apply bench_finished_exited.
Defined.

(** C3 as stated fails.  T0 holds the lock with no successor while T1 has
    queued.  T0's release, from call to return, loads tail twice, exchanges
    it and hands over to T1; it never attempts a compare-exchange. *)
Lemma release_skips_compare_exchange :
  reachable (lay := addr0) 2 one_waiter /\
  pc (th one_waiter 0%nat) = Crit /\
  tls_successor (th one_waiter 0%nat) = NULL /\
  (trace (lay := addr0) [0; 0; 0; 0; 0]%nat one_waiter).*2 =
    [EvRelCall; EvLoadTail 4104; EvLoadTail 4104;
     EvXchgTail LOCKED_EMPTY 4104; EvLoadNext 4104 NULL;
     EvStoreNext 4104 4096; EvRelReturn] /\
  filter is_cas (trace (lay := addr0) [0; 0; 0; 0; 0]%nat one_waiter).*2 = [] /\
  pc (th (exec (lay := addr0) [0; 0; 0; 0; 0]%nat one_waiter) 0%nat) = Idle.
Proof. split; [by apply reachable0|]. by vm_compute. Qed.

(** C9 as stated fails.  [woken_alone] and [woken_with_successor] have the
    same lock word and the same [next] field at every address, and in both T0
    is about to call release, which takes the lock and nothing else.  The two
    releases differ: one frees the lock, the other leaves tail alone and
    writes T2's node.  What tells them apart is T0's thread-local context. *)
Lemma release_depends_on_thread_local_storage :
  reachable (lay := addr0) 3 woken_alone /\
  reachable (lay := addr0) 3 woken_with_successor /\
  pc (th woken_alone 0%nat) = Crit /\
  pc (th woken_with_successor 0%nat) = Crit /\
  tail woken_alone = tail woken_with_successor /\
  (forall a, next woken_alone a = next woken_with_successor a) /\
  (tls_successor (th woken_alone 0%nat),
   tls_end_of_segment (th woken_alone 0%nat)) = (NULL, LOCKED_EMPTY) /\
  (tls_successor (th woken_with_successor 0%nat),
   tls_end_of_segment (th woken_with_successor 0%nat)) = (4112, 4104) /\
  pc (th (exec (lay := addr0) [0; 0; 0]%nat woken_alone) 0%nat) = Idle /\
  pc (th (exec (lay := addr0) [0; 0; 0]%nat woken_with_successor) 0%nat) =
    Idle /\
  tail (exec (lay := addr0) [0; 0; 0]%nat woken_alone) = NULL /\
  tail (exec (lay := addr0) [0; 0; 0]%nat woken_with_successor) =
    LOCKED_EMPTY /\
  next (exec (lay := addr0) [0; 0; 0]%nat woken_alone) 4112 = NULL /\
  next (exec (lay := addr0) [0; 0; 0]%nat woken_with_successor) 4112 = 4104.
Proof.
  split; [by apply reachable0|]. split; [by apply reachable0|].
  split; [by vm_compute|]. split; [by vm_compute|]. split; [by vm_compute|].
  split; [|by vm_compute].
  intros a.
  destruct (decide (a = addr0 0)) as [->|H0]; [by vm_compute|].
  destruct (decide (a = addr0 1)) as [->|H1]; [by vm_compute|].
  destruct (decide (a = addr0 2)) as [->|H2]; [by vm_compute|].
  assert (forall t, (t < 3)%nat -> a <> addr0 t) as Ha.
  { intros t Ht. destruct t as [|[|[|t]]]; [done..|lia]. }
  rewrite !(unwritten (lay := addr0) addr0_inj addr0_aligned addr0_nonnull 3);
    [done|by apply reachable0|done|by apply reachable0|done].
Qed.
